(** * shady-css-parser: the recursive-descent parser of [src/shady-css/parser.ts]

    The parser is embedded from [parser.ts].  The classes it imports
    ([Token], [Tokenizer], [NodeFactory] and the node types of [common]) are
    not part of the sources at hand; they are modelled from the specification
    and every such definition says so.  Offsets are natural numbers and a text
    is a string of 8-bit characters, so that [cssText.length] is
    [String.length]. *)

From Stdlib Require Import String Ascii List Arith Lia Bool.
Import ListNotations.
Local Open Scope nat_scope.

(** ** Ranges and tokens *)

(** Modelled from the spec: the [Range] value type of [common],
    [{start, end}], a half-open span of offsets into the source text. *)
Module Range.
Record t : Set := mk { start : nat; end_ : nat }.
End Range.

(** Modelled from the spec: the token kinds of [Token.type].  The spec lists
    eleven kinds and the derived category [boundary]; all twelve are names the
    parser passes to [Token.is]. *)
Inductive TokenType : Set :=
| whitespace | comment | word | at_
| openBrace | closeBrace | openParenthesis | closeParenthesis
| colon | semicolon | propertyBoundary | boundary.

(** Modelled from the spec: the [Token] class, [{kind, start, end, prev, next}].
    The links to the neighbours are kept as the token's [index] in the token
    sequence (the spec's own suggestion), which also stands for the identity
    of the token object when the parser compares two tokens with [===]. *)
Record Token : Set := mkToken
  { type : TokenType; start : nat; end_ : nat; index : nat }.

Definition TokenType_eqb (a b : TokenType) : bool :=
  match a, b with
  | whitespace, whitespace | comment, comment | word, word | at_, at_
  | openBrace, openBrace | closeBrace, closeBrace
  | openParenthesis, openParenthesis | closeParenthesis, closeParenthesis
  | colon, colon | semicolon, semicolon
  | propertyBoundary, propertyBoundary | boundary, boundary => true
  | _, _ => false
  end.

(** Modelled from the spec: the capability check [token.is(kind)].  A token
    answers for its own kind; [semicolon] and [closeBrace] tokens also answer
    for [propertyBoundary] (the tokens that end a declaration); and
    [semicolon], [propertyBoundary], the two braces and the two parentheses
    answer for the category [boundary]. *)
Definition is_ (t : Token) (k : TokenType) : bool :=
  TokenType_eqb (type t) k
  || match k, type t with
     | propertyBoundary, (semicolon | closeBrace) => true
     | boundary, (semicolon | propertyBoundary | openBrace | closeBrace
                 | openParenthesis | closeParenthesis) => true
     | _, _ => false
     end.

(** Same token object ([===]). *)
Definition same (a b : Token) : bool := index a =? index b.

(** ** The syntax tree *)

(** Modelled from the spec: the node types of [common], as the default
    [NodeFactory] builds them (one constructor per factory operation, fields
    in the order of the factory's arguments).  An absent optional field
    ([undefined]) is [None]. *)
Inductive Rule : Set :=
| Comment (value : string) (range : Range.t)
| AtRule (name parameters : string) (rulelist : option Rulelist)
         (nameRange : Range.t) (parametersRange : option Range.t)
         (range : Range.t)
| Ruleset (selector : string) (rulelist : Rulelist)
          (selectorRange range : Range.t)
| Declaration (name : string) (value : option DeclarationValue)
              (nameRange range : Range.t)
| Discarded (text : string) (range : Range.t)
with Rulelist : Set :=
| mkRulelist (rules : list Rule) (range : Range.t)
with DeclarationValue : Set :=
| Expression (text : string) (range : Range.t)
| Mixin (rulelist : Rulelist).

Record Stylesheet : Set := mkStylesheet
  { rules : list Rule; range : Range.t }.

(** ** Outcomes of a call *)

(** The ways a call of the parser can fail at run time: each is a property
    read on [null].  [OutOfFuel] is not an outcome of the program; it is the
    answer of the model when the recursion budget it was given is used up. *)
Inductive TypeError : Set :=
| ruleStartIsNull      (* [ruleStart!] in parseDeclarationOrRuleset *)
| currentTokenIsNull   (* [tokenizer.currentToken.is] / [currentToken!.start] *)
| startTokenIsNull     (* [getRange(start, end)] in parseAtRule *)
| previousIsNull.      (* [currentToken.previous!.end] in parseAtRule *)

Inductive Outcome (A : Type) : Type :=
| Returns (a : A) (cursor : nat)
| Throws (e : TypeError)
| OutOfFuel.
Arguments Returns {A} a cursor.
Arguments Throws {A} e.
Arguments OutOfFuel {A}.

(** [rules.push(rule)] guarded by [if (rule)]. *)
Definition push (rules : list Rule) (rule : option Rule) : list Rule :=
  match rule with Some r => rules ++ [r] | None => rules end.

(** JavaScript truthiness of a string that may be [undefined]. *)
Definition truthy (s : option string) : bool :=
  match s with Some (String _ _) => true | _ => false end.

(** [/\s/] on the characters of the ASCII range. *)
Definition isWhitespace (c : ascii) : bool :=
  let n := nat_of_ascii c in
  (n =? 32) || ((9 <=? n) && (n <=? 13)).

(** [cssText.slice(start, end)]: empty when [end <= start]. *)
Definition text_slice (cssText : string) (r : Range.t) : string :=
  substring (Range.start r) (Range.end_ r - Range.start r) cssText.

(** ** The tokenizer interface and the parser *)

Section Parser.

(** The state of a [Tokenizer]: the text, the token sequence and a cursor.
    Text and tokens never change during a parse; the cursor is the state
    that the parser's functions pass along. *)
Variable cssText : string.
Variable tokens : list Token.

(** The token at place [i] of the sequence, linked to that place. *)
Definition tokenAt (i : nat) : option Token :=
  match nth_error tokens i with
  | Some t => Some (mkToken (type t) (start t) (end_ t) i)
  | None => None
  end.

(** Modelled from the spec: [tokenizer.currentToken], [null] at end of
    input. *)
Definition currentToken (cursor : nat) : option Token := tokenAt cursor.

(** Modelled from the spec: [tokenizer.advance()], which returns the token
    that was current and moves on; [null] (and no move) at end of input. *)
Definition advance (cursor : nat) : option Token * nat :=
  match currentToken cursor with
  | Some t => (Some t, S cursor)
  | None => (None, cursor)
  end.

(** [token.previous] and [token.next]. *)
Definition previous (t : Token) : option Token :=
  match index t with 0 => None | S i => tokenAt i end.
Definition next (t : Token) : option Token := tokenAt (S (index t)).

(** Modelled from the spec: [tokenizer.getRange(startToken, endToken)],
    from the first token's start to the second token's end, or the one
    token's span when the second is absent.  The first token is read in any
    case: where the parser passes a variable that may hold [null], the call
    is modelled by a case on it, and [null] there is a TypeError. *)
Definition getRange (startToken : Token) (endToken : option Token) : Range.t :=
  Range.mk (start startToken)
           (match endToken with Some e => end_ e | None => end_ startToken end).

(** Modelled from the spec: [tokenizer.slice(startToken, endToken)]. *)
Definition slice (startToken : Token) (endToken : option Token) : string :=
  text_slice cssText (getRange startToken endToken).

Definition whitespaceAt (i : nat) : bool :=
  match String.get i cssText with Some c => isWhitespace c | None => false end.

Fixpoint trimLeft (n start : nat) : nat :=
  match n with
  | 0 => start
  | S n' => if whitespaceAt start then trimLeft n' (S start) else start
  end.

Fixpoint trimRight (n end' : nat) : nat :=
  match n with
  | 0 => end'
  | S n' => if whitespaceAt (end' - 1) then trimRight n' (end' - 1) else end'
  end.

(** Modelled from the spec: [tokenizer.trimRange(range)], which narrows a
    range to exclude the whitespace characters at its two ends. *)
Definition trimRange (r : Range.t) : Range.t :=
  let s := trimLeft (Range.end_ r - Range.start r) (Range.start r) in
  let e := trimRight (Range.end_ r - s) (Range.end_ r) in
  Range.mk s e.

(** *** parseComment *)
Definition parseComment (cursor : nat) : Outcome (option Rule) :=
  match advance cursor with
  | (None, c) => Returns None c
  | (Some token, c) =>
      Returns (Some (Comment (slice token None)
                             (Range.mk (start token) (end_ token)))) c
  end.

(** *** parseUnknown *)

(** The [while] loop of parseUnknown; [end'] is the variable [end]. *)
Fixpoint parseUnknown_loop (fuel : nat) (end' : option Token) (cursor : nat)
  : Outcome (option Token) :=
  match fuel with
  | 0 => OutOfFuel
  | S fuel =>
      match currentToken cursor with
      | Some t =>
          if is_ t boundary
          then let (e, c) := advance cursor in parseUnknown_loop fuel e c
          else Returns end' cursor
      | None => Returns end' cursor
      end
  end.

Definition parseUnknown (fuel : nat) (cursor : nat) : Outcome (option Rule) :=
  match advance cursor with
  | (None, c) => Returns None c
  | (Some start', c) =>
      match parseUnknown_loop fuel None c with
      | Returns end' c' =>
          Returns (Some (Discarded (slice start' end') (getRange start' end'))) c'
      | Throws e => Throws e
      | OutOfFuel => OutOfFuel
      end
  end.

(** *** The scan of parseDeclarationOrRuleset *)

(** The inner loop that skips from an open parenthesis to the next close
    parenthesis (not consumed) or to the end of input. *)
Fixpoint skipToCloseParenthesis (fuel : nat) (cursor : nat) : Outcome unit :=
  match fuel with
  | 0 => OutOfFuel
  | S fuel =>
      match currentToken cursor with
      | Some t =>
          if negb (is_ t closeParenthesis)
          then skipToCloseParenthesis fuel (snd (advance cursor))
          else Returns tt cursor
      | None => Returns tt cursor
      end
  end.

(** The three variables of the scan. *)
Record Scan : Set := mkScan
  { ruleStart : option Token; ruleEnd : option Token; colon' : option Token }.

(** The first [while] loop of parseDeclarationOrRuleset. *)
Fixpoint scan (fuel : nat) (s : Scan) (cursor : nat) : Outcome Scan :=
  match fuel with
  | 0 => OutOfFuel
  | S fuel =>
      match currentToken cursor with
      | None => Returns s cursor
      | Some t =>
          if is_ t whitespace then scan fuel s (snd (advance cursor))
          else if is_ t openParenthesis then
            match skipToCloseParenthesis fuel cursor with
            | Returns _ c => scan fuel s c
            | Throws e => Throws e
            | OutOfFuel => OutOfFuel
            end
          else if is_ t openBrace || is_ t propertyBoundary then Returns s cursor
          else
            let colon1 := if is_ t colon then Some t else colon' s in
            match ruleStart s with
            | None =>
                let (rs, c) := advance cursor in
                scan fuel (mkScan rs rs colon1) c
            | Some _ =>
                let (re, c) := advance cursor in
                scan fuel (mkScan (ruleStart s) re colon1) c
            end
      end
  end.

(** [tokenizer.currentToken && tokenizer.currentToken.previous || ruleEnd] *)
Definition previousOr (cursor : nat) (ruleEnd : option Token) : option Token :=
  match currentToken cursor with
  | Some t => match previous t with Some p => Some p | None => ruleEnd end
  | None => ruleEnd
  end.

(** The declaration branch of parseDeclarationOrRuleset: the scan stopped at
    [stop], a token that answers for [propertyBoundary]. *)
Definition declaration (s : Scan) (stop : Token) (cursor : nat)
  : Outcome (option Rule) :=
  match ruleStart s with
  | None => Throws ruleStartIsNull
  | Some rs =>
      let nameRange :=
        getRange rs (match colon' s with
                     | Some c => previous c
                     | None => ruleEnd s
                     end) in
      let declarationName := text_slice cssText nameRange in
      let expression :=
        match colon' s with
        | Some c =>
            match next c with
            | Some n =>
                let rawExpressionRange := getRange n (ruleEnd s) in
                let expressionRange := trimRange rawExpressionRange in
                let expressionValue := text_slice cssText expressionRange in
                Some (Expression expressionValue expressionRange)
            | None => None
            end
        | None => None
        end in
      let c := if is_ stop semicolon then snd (advance cursor) else cursor in
      let range := trimRange (getRange rs (previousOr c (ruleEnd s))) in
      Returns (Some (Declaration declarationName expression nameRange range)) c
  end.

(** *** The mutually recursive functions *)

(** The variables of parseAtRule. *)
Record AtState : Set := mkAtState
  { name : option string;
    nameRange : option Range.t;
    rulelist : option Rulelist;
    parametersStart : option Token;
    parametersEnd : option Token }.

(** The loop of parseAtRule that collects the word tokens of the name. *)
Fixpoint words_loop (fuel : nat) (end' : option Token) (cursor : nat)
  : Outcome (option Token) :=
  match fuel with
  | 0 => OutOfFuel
  | S fuel =>
      match currentToken cursor with
      | Some t =>
          if is_ t word
          then let (e, c) := advance cursor in words_loop fuel e c
          else Returns end' cursor
      | None => Returns end' cursor
      end
  end.

(** What parseAtRule does after its loop. *)
Definition atRule_result (start' : nat) (s : AtState) (cursor : nat)
  : Outcome (option Rule) :=
  match name s, nameRange s with
  | Some name, Some nameRange =>
      let parametersRange :=
        match parametersStart s with
        | Some ps => Some (trimRange (getRange ps (parametersEnd s)))
        | None => None
        end in
      let parameters :=
        match parametersRange with
        | Some r => text_slice cssText r
        | None => EmptyString
        end in
      match currentToken cursor with
      | Some t =>
          match previous t with
          | Some p =>
              Returns (Some (AtRule name parameters (rulelist s) nameRange
                                    parametersRange (Range.mk start' (end_ p))))
                      cursor
          | None => Throws previousIsNull
          end
      | None =>
          Returns (Some (AtRule name parameters (rulelist s) nameRange
                                parametersRange
                                (Range.mk start' (String.length cssText))))
                  cursor
      end
  | _, _ => Returns None cursor
  end.

Fixpoint parseRule (fuel : nat) (cursor : nat) {struct fuel}
  : Outcome (option Rule) :=
  match fuel with
  | 0 => OutOfFuel
  | S fuel =>
      match currentToken cursor with
      | None => Returns None cursor
      | Some token =>
          if is_ token whitespace then Returns None (snd (advance cursor))
          else if is_ token comment then parseComment cursor
          else if is_ token word then parseDeclarationOrRuleset fuel cursor
          else if is_ token propertyBoundary then parseUnknown fuel cursor
          else if is_ token at_ then parseAtRule fuel cursor
          else parseUnknown fuel cursor
      end
  end

with parseAtRule (fuel : nat) (cursor : nat) {struct fuel}
  : Outcome (option Rule) :=
  match fuel with
  | 0 => OutOfFuel
  | S fuel =>
      match currentToken cursor with
      | None => Returns None cursor
      | Some t =>
          let start' := start t in
          match parseAtRule_loop fuel (mkAtState None None None None None) cursor with
          | Returns s c => atRule_result start' s c
          | Throws e => Throws e
          | OutOfFuel => OutOfFuel
          end
      end
  end

with parseAtRule_loop (fuel : nat) (s : AtState) (cursor : nat) {struct fuel}
  : Outcome AtState :=
  match fuel with
  | 0 => OutOfFuel
  | S fuel =>
      match currentToken cursor with
      | None => Returns s cursor
      | Some t =>
          if is_ t whitespace then parseAtRule_loop fuel s (snd (advance cursor))
          else if negb (truthy (name s)) && is_ t at_ then
            (* Discard the @: *)
            let c1 := snd (advance cursor) in
            let start' := currentToken c1 in
            match words_loop fuel None c1 with
            | Returns end' c2 =>
                match start' with
                | None => Throws startTokenIsNull
                | Some st =>
                    let nameRange := getRange st end' in
                    let name := text_slice cssText nameRange in
                    parseAtRule_loop fuel
                      (mkAtState (Some name) (Some nameRange) (rulelist s)
                                 (parametersStart s) (parametersEnd s)) c2
                end
            | Throws e => Throws e
            | OutOfFuel => OutOfFuel
            end
          else if is_ t openBrace then
            match parseRulelist fuel cursor with
            | Returns rl c =>
                Returns (mkAtState (name s) (nameRange s) (Some rl)
                                   (parametersStart s) (parametersEnd s)) c
            | Throws e => Throws e
            | OutOfFuel => OutOfFuel
            end
          else if is_ t propertyBoundary then Returns s (snd (advance cursor))
          else
            match parametersStart s with
            | None =>
                let (ps, c) := advance cursor in
                parseAtRule_loop fuel
                  (mkAtState (name s) (nameRange s) (rulelist s) ps
                             (parametersEnd s)) c
            | Some _ =>
                let (pe, c) := advance cursor in
                parseAtRule_loop fuel
                  (mkAtState (name s) (nameRange s) (rulelist s)
                             (parametersStart s) pe) c
            end
      end
  end

with parseRulelist (fuel : nat) (cursor : nat) {struct fuel}
  : Outcome Rulelist :=
  match fuel with
  | 0 => OutOfFuel
  | S fuel =>
      match currentToken cursor with
      | None => Throws currentTokenIsNull
      | Some t =>
          let start' := start t in
          (* Take the opening { boundary: *)
          let c1 := snd (advance cursor) in
          match parseRulelist_loop fuel [] c1 with
          | Returns (rules, endToken) c2 =>
              let end' := match endToken with
                          | Some e => end_ e
                          | None => String.length cssText
                          end in
              Returns (mkRulelist rules (Range.mk start' end')) c2
          | Throws e => Throws e
          | OutOfFuel => OutOfFuel
          end
      end
  end

with parseRulelist_loop (fuel : nat) (rules : list Rule) (cursor : nat)
                        {struct fuel}
  : Outcome (list Rule * option Token) :=
  match fuel with
  | 0 => OutOfFuel
  | S fuel =>
      match currentToken cursor with
      | None => Returns (rules, None) cursor
      | Some t =>
          if is_ t closeBrace then Returns (rules, Some t) (snd (advance cursor))
          else
            match parseRule fuel cursor with
            | Returns rule c => parseRulelist_loop fuel (push rules rule) c
            | Throws e => Throws e
            | OutOfFuel => OutOfFuel
            end
      end
  end

with parseDeclarationOrRuleset (fuel : nat) (cursor : nat) {struct fuel}
  : Outcome (option Rule) :=
  match fuel with
  | 0 => OutOfFuel
  | S fuel =>
      match scan fuel (mkScan None None None) cursor with
      | Returns s c =>
          match currentToken c with
          | None => (* terminated early *) Returns None c
          | Some t =>
              if is_ t propertyBoundary then declaration s t c
              else if match colon' s, ruleEnd s with
                      | Some co, Some re => same co re
                      | _, _ => false
                      end
              then
                (* This is the case for a mixin-like structure: *)
                match parseRulelist fuel c with
                | Returns rulelist c1 =>
                    match currentToken c1 with
                    | None => Throws currentTokenIsNull
                    | Some t1 =>
                        let c2 := if is_ t1 semicolon
                                  then snd (advance c1) else c1 in
                        match ruleStart s, ruleEnd s with
                        | Some rs, Some re =>
                            let nameRange := getRange rs (previous re) in
                            let declarationName := text_slice cssText nameRange in
                            let range :=
                              trimRange (getRange rs (previousOr c2 (ruleEnd s))) in
                            Returns (Some (Declaration declarationName
                                             (Some (Mixin rulelist))
                                             nameRange range)) c2
                        | _, _ => Throws ruleStartIsNull
                        end
                    end
                | Throws e => Throws e
                | OutOfFuel => OutOfFuel
                end
              else
                (* Otherwise, this is a ruleset: *)
                match ruleStart s with
                | None => Throws ruleStartIsNull
                | Some rs =>
                    let selectorRange := getRange rs (ruleEnd s) in
                    let selector := text_slice cssText selectorRange in
                    match parseRulelist fuel c with
                    | Returns rulelist c1 =>
                        let start' := start rs in
                        let end' :=
                          match currentToken c1 with
                          | Some t1 =>
                              match previous t1 with
                              | Some p => end_ p
                              | None => end_ rs
                              end
                          | None => String.length cssText
                          end in
                        Returns (Some (Ruleset selector rulelist selectorRange
                                               (Range.mk start' end'))) c1
                    | Throws e => Throws e
                    | OutOfFuel => OutOfFuel
                    end
                end
          end
      | Throws e => Throws e
      | OutOfFuel => OutOfFuel
      end
  end.

(** *** parseRules, parseStylesheet *)
Fixpoint parseRules_loop (fuel : nat) (rules : list Rule) (cursor : nat)
  : Outcome (list Rule) :=
  match fuel with
  | 0 => OutOfFuel
  | S fuel =>
      match currentToken cursor with
      | None => Returns rules cursor
      | Some _ =>
          match parseRule fuel cursor with
          | Returns rule c => parseRules_loop fuel (push rules rule) c
          | Throws e => Throws e
          | OutOfFuel => OutOfFuel
          end
      end
  end.

Definition parseRules (fuel : nat) (cursor : nat) : Outcome (list Rule) :=
  parseRules_loop fuel [] cursor.

Definition parseStylesheet (fuel : nat) (cursor : nat) : Outcome Stylesheet :=
  match parseRules fuel cursor with
  | Returns rules c =>
      Returns (mkStylesheet rules (Range.mk 0 (String.length cssText))) c
  | Throws e => Throws e
  | OutOfFuel => OutOfFuel
  end.

End Parser.

(** ** The tokenizer *)

(** Modelled from the spec: the classification of the [Tokenizer] (its
    section 4.1), one left-to-right scan in which every token is a maximal run
    of one kind: a comment from [/*] to the next [*/] or to the end of the
    text, a run of whitespace, one of the characters [@ { } ( ) : ;] alone, or
    a word, the run of all other characters.  [Run] is the token being
    built. *)
Inductive Run : Set :=
| NoRun
| InWhitespace (start : nat)
| InWord (start : nat)
| CommentOpening (start : nat)            (* after the slash of an opening *)
| InComment (start : nat) (star : bool).  (* [star]: the last character was a star *)

Definition special (c : ascii) : option TokenType :=
  match c with
  | "@" => Some at_
  | "{" => Some openBrace
  | "}" => Some closeBrace
  | "(" => Some openParenthesis
  | ")" => Some closeParenthesis
  | ":" => Some colon
  | ";" => Some semicolon
  | _ => None
  end%char.

(** The token of the run that ends at [offset], if a run is open. *)
Definition closeRun (run : Run) (offset n : nat) : list Token :=
  match run with
  | NoRun => []
  | InWhitespace s => [mkToken whitespace s offset n]
  | InWord s => [mkToken word s offset n]
  | CommentOpening s | InComment s _ => [mkToken comment s offset n]
  end.

Definition startsComment (c : ascii) (rest : string) : bool :=
  Ascii.eqb c "/" && match rest with
                     | String d _ => Ascii.eqb d "*"
                     | EmptyString => false
                     end.

(** [n] is the number of tokens already produced. *)
Fixpoint tokenize_from (text : string) (offset n : nat) (run : Run)
  : list Token :=
  match text with
  | EmptyString => closeRun run offset n
  | String c rest =>
      let closed := closeRun run offset n in
      let n' := n + length closed in
      match run with
      | CommentOpening s => tokenize_from rest (S offset) n (InComment s false)
      | InComment s star =>
          if star && Ascii.eqb c "/"
          then mkToken comment s (S offset) n
               :: tokenize_from rest (S offset) (S n) NoRun
          else tokenize_from rest (S offset) n (InComment s (Ascii.eqb c "*"))
      | _ =>
          if isWhitespace c then
            match run with
            | InWhitespace _ => tokenize_from rest (S offset) n run
            | _ => closed ++ tokenize_from rest (S offset) n' (InWhitespace offset)
            end
          else
            match special c with
            | Some k =>
                closed ++ mkToken k offset (S offset) n'
                       :: tokenize_from rest (S offset) (S n') NoRun
            | None =>
                match run with
                | InWord _ => tokenize_from rest (S offset) n run
                | _ =>
                    if startsComment c rest
                    then closed ++ tokenize_from rest (S offset) n' (CommentOpening offset)
                    else closed ++ tokenize_from rest (S offset) n' (InWord offset)
                end
            end
      end
  end.

Definition tokenize (cssText : string) : list Token :=
  tokenize_from cssText 0 0 NoRun.

(** ** parse *)

(** The recursion budget the model gives a parse of [n] tokens; it is shown
    below to be enough for every token sequence. *)
Definition budget (n : nat) : nat := 5 * n + 10.

(** [parse(cssText)]: a [Tokenizer] on the text, then parseStylesheet. *)
Definition parse (cssText : string) : Outcome Stylesheet :=
  let tokens := tokenize cssText in
  parseStylesheet cssText tokens (budget (length tokens)) 0.

(** The top-level tokens of a rule span, in the words of the spec: from the
    tokens still to be read, whitespace is skipped, a group is skipped from its
    open parenthesis up to (not including) the next close parenthesis, and the
    span stops before the first token that is an [openBrace] or answers for
    [propertyBoundary].  [inGroup] tells whether a group is being skipped. *)
Fixpoint spanTokens (inGroup : bool) (ts : list Token) : list Token :=
  match ts with
  | [] => []
  | t :: ts' =>
      if inGroup then
        if is_ t closeParenthesis then t :: spanTokens false ts'
        else spanTokens true ts'
      else if is_ t whitespace then spanTokens false ts'
      else if is_ t openParenthesis then spanTokens true ts'
      else if is_ t openBrace || is_ t propertyBoundary then []
      else t :: spanTokens false ts'
  end.

(** The tokens from position [i] on, each with its place in the sequence. *)
Fixpoint linked (i : nat) (ts : list Token) : list Token :=
  match ts with
  | [] => []
  | t :: ts' => mkToken (type t) (start t) (end_ t) i :: linked (S i) ts'
  end.

Definition tokensFrom (tokens : list Token) (cursor : nat) : list Token :=
  linked cursor (skipn cursor tokens).

Definition lastColon (ts : list Token) : option Token :=
  last (map Some (filter (fun t => is_ t colon) ts)) None.

Definition firstColon (ts : list Token) : option Token :=
  hd_error (filter (fun t => is_ t colon) ts).

(** The number of iterations that the loop of parseRules makes from
    [cursor]; the iteration in which parseRule throws is counted. *)
Fixpoint parseRules_iterations (cssText : string) (tokens : list Token)
                               (fuel : nat) (cursor : nat) : nat :=
  match fuel with
  | 0 => 0
  | S fuel =>
      match currentToken tokens cursor with
      | None => 0
      | Some _ =>
          match parseRule cssText tokens fuel cursor with
          | Returns _ c => S (parseRules_iterations cssText tokens fuel c)
          | _ => 1
          end
      end
  end.

(** The text [@import "x.css";], with its two quotation marks. *)
Definition import_statement : string :=
  ("@import " ++ String (ascii_of_nat 34) "x.css"
              ++ String (ascii_of_nat 34) ";")%string.

(** The Comment nodes of the comment tokens among [ts], in their order. *)
Definition commentsOf (cssText : string) (ts : list Token) : list Rule :=
  map (fun t => Comment (text_slice cssText (Range.mk (start t) (end_ t)))
                        (Range.mk (start t) (end_ t)))
      (filter (fun t => is_ t comment) ts).

(** No colon token is followed, whitespace tokens apart, by an open brace:
    the token sequence has no mixin declaration. *)
Definition mixinFree (tokens : list Token) : Prop :=
  forall j k co ob,
    tokenAt tokens j = Some co -> is_ co colon = true -> j < k ->
    (forall i t, j < i < k -> tokenAt tokens i = Some t -> is_ t whitespace = true) ->
    tokenAt tokens k = Some ob -> is_ ob openBrace = false.

(** The last token, if there is one, is not an [@]. *)
Definition atNotLast (tokens : list Token) : Prop :=
  forall t, tokenAt tokens (length tokens - 1) = Some t -> is_ t at_ = false.

(** [after o P]: when the call returned, [P] holds of the cursor it left. *)
Definition after {A : Type} (o : Outcome A) (P : nat -> Prop) : Prop :=
  match o with
  | Returns _ c' => P c'
  | _ => True
  end.

(** [failing o P]: when the call threw, [P] holds of the error. *)
Definition failing {A : Type} (o : Outcome A) (P : TypeError -> Prop) : Prop :=
  match o with
  | Throws e => P e
  | _ => True
  end.

(** The two reads on [null] that a parse can reach: the [currentToken] after
    the rulelist of a mixin declaration, and the token after an [@]. *)
Definition reachable (e : TypeError) : Prop :=
  e = currentTokenIsNull \/ e = startTokenIsNull.

(** ** Facts on tokens and on the tokenizer interface *)

Lemma last_cons (A : Type) (l : list A) (a d : A) : last (a :: l) d = last l a.
Proof.
  revert a d. induction l as [|b l IH]; intros a d; [reflexivity|].
  change (last (a :: b :: l) d) with (last (b :: l) d).
  rewrite (IH b d), (IH b a). reflexivity.
Qed.

Lemma is_word_type t : is_ t word = true -> type t = word.
Proof. destruct t as [[] s e i]; simpl; intros H; try discriminate H; reflexivity. Qed.

Lemma is_of_type t k1 k2 : type t = k1 -> is_ t k2 = is_ (mkToken k1 0 0 0) k2.
Proof. intros <-. destruct t as [ty s e i]; reflexivity. Qed.

Section ParserFacts.

Variable cssText : string.
Variable tokens : list Token.

Local Abbreviation currentToken := (currentToken tokens).
Local Abbreviation tokenAt := (tokenAt tokens).
Local Abbreviation advance := (advance tokens).
Local Abbreviation previous := (previous tokens).
Local Abbreviation next := (next tokens).

Lemma tokenAt_index i t : tokenAt i = Some t -> index t = i.
Proof.
  unfold tokenAt. destruct (nth_error tokens i); intros H;
    inversion H; reflexivity.
Qed.

Lemma tokenAt_Some_lt i t : tokenAt i = Some t -> i < length tokens.
Proof.
  unfold tokenAt. destruct (nth_error tokens i) eqn:E; intros H.
  - apply nth_error_Some. congruence.
  - discriminate.
Qed.

Lemma tokenAt_None_ge i : tokenAt i = None -> length tokens <= i.
Proof.
  unfold tokenAt. destruct (nth_error tokens i) eqn:E; intros H.
  - discriminate.
  - now apply nth_error_None.
Qed.

Lemma tokenAt_lt_Some i : i < length tokens -> exists t, tokenAt i = Some t.
Proof.
  intros H. destruct (tokenAt i) eqn:E; eauto.
  apply tokenAt_None_ge in E. lia.
Qed.

Lemma advance_Some c t : currentToken c = Some t -> advance c = (Some t, S c).
Proof. unfold advance. intros ->. reflexivity. Qed.

Lemma advance_None c : currentToken c = None -> advance c = (None, c).
Proof. unfold advance. intros ->. reflexivity. Qed.

Lemma skipn_nth_error (l : list Token) c :
  skipn c l = match nth_error l c with
              | Some t => t :: skipn (S c) l
              | None => []
              end.
Proof.
  revert c. induction l as [|a l IH]; intros [|c]; try reflexivity.
  simpl skipn at 1. rewrite IH. reflexivity.
Qed.

Lemma tokensFrom_Some c t :
  currentToken c = Some t -> tokensFrom tokens c = t :: tokensFrom tokens (S c).
Proof.
  unfold currentToken, tokenAt, tokensFrom.
  rewrite (skipn_nth_error tokens c).
  destruct (nth_error tokens c); intros H; inversion H. reflexivity.
Qed.

Lemma tokensFrom_None c : currentToken c = None -> tokensFrom tokens c = [].
Proof.
  unfold currentToken, tokenAt, tokensFrom.
  rewrite (skipn_nth_error tokens c).
  destruct (nth_error tokens c); intros H; inversion H. reflexivity.
Qed.

(** *** The loops that call nothing else *)

Local Abbreviation parseUnknown_loop := (parseUnknown_loop tokens).
Local Abbreviation words_loop := (words_loop tokens).
Local Abbreviation skipToCloseParenthesis := (skipToCloseParenthesis tokens).
Local Abbreviation scan := (scan tokens).

Lemma parseUnknown_loop_advances fuel : forall e c e' c',
  parseUnknown_loop fuel e c = Returns e' c' -> c <= c'.
Proof.
  induction fuel as [|fuel IH]; simpl; intros e c e' c' H; [discriminate|].
  destruct (currentToken c) as [t|] eqn:Ec.
  - destruct (is_ t boundary).
    + rewrite (advance_Some _ _ Ec) in H. apply IH in H. lia.
    + inversion H; lia.
  - inversion H; lia.
Qed.

Lemma parseUnknown_loop_returns fuel : forall e c,
  length tokens - c < fuel ->
  exists e' c', parseUnknown_loop fuel e c = Returns e' c'.
Proof.
  induction fuel as [|fuel IH]; simpl; intros e c H; [lia|].
  destruct (currentToken c) as [t|] eqn:Ec; [|eauto].
  destruct (is_ t boundary); [|eauto].
  rewrite (advance_Some _ _ Ec). apply IH.
  apply tokenAt_Some_lt in Ec. lia.
Qed.

Lemma words_loop_advances fuel : forall e c e' c',
  words_loop fuel e c = Returns e' c' -> c <= c'.
Proof.
  induction fuel as [|fuel IH]; simpl; intros e c e' c' H; [discriminate|].
  destruct (currentToken c) as [t|] eqn:Ec.
  - destruct (is_ t word).
    + rewrite (advance_Some _ _ Ec) in H. apply IH in H. lia.
    + inversion H; lia.
  - inversion H; lia.
Qed.

Lemma words_loop_returns fuel : forall e c,
  length tokens - c < fuel ->
  exists e' c', words_loop fuel e c = Returns e' c'.
Proof.
  induction fuel as [|fuel IH]; simpl; intros e c H; [lia|].
  destruct (currentToken c) as [t|] eqn:Ec; [|eauto].
  destruct (is_ t word); [|eauto].
  rewrite (advance_Some _ _ Ec). apply IH.
  apply tokenAt_Some_lt in Ec. lia.
Qed.

Lemma skipToCloseParenthesis_advances fuel : forall c u c',
  skipToCloseParenthesis fuel c = Returns u c' ->
  c <= c' /\
  (forall t, currentToken c = Some t -> is_ t closeParenthesis = false -> c < c').
Proof.
  induction fuel as [|fuel IH]; simpl; intros c u c' H; [discriminate|].
  destruct (currentToken c) as [t|] eqn:Ec.
  - destruct (is_ t closeParenthesis) eqn:Ep; simpl in H.
    + inversion H; subst. split; [lia|]. intros t' Ht' E. congruence.
    + rewrite (advance_Some _ _ Ec) in H. simpl in H. apply IH in H.
      split; [lia|]. intros; lia.
  - inversion H; subst. split; [lia|]. intros; discriminate.
Qed.

Lemma skipToCloseParenthesis_returns fuel : forall c,
  length tokens - c < fuel ->
  exists c', skipToCloseParenthesis fuel c = Returns tt c'.
Proof.
  induction fuel as [|fuel IH]; simpl; intros c H; [lia|].
  destruct (currentToken c) as [t|] eqn:Ec; [|eauto].
  destruct (is_ t closeParenthesis); simpl; [eauto|].
  rewrite (advance_Some _ _ Ec). simpl. apply IH.
  apply tokenAt_Some_lt in Ec. lia.
Qed.

(** Skipping a group ends where the spec's span says it does. *)
Lemma skipToCloseParenthesis_span fuel : forall c u c',
  skipToCloseParenthesis fuel c = Returns u c' ->
  spanTokens true (tokensFrom tokens c) = spanTokens false (tokensFrom tokens c').
Proof.
  induction fuel as [|fuel IH]; simpl; intros c u c' H; [discriminate|].
  destruct (currentToken c) as [t|] eqn:Ec.
  - rewrite (tokensFrom_Some _ _ Ec) at 1.
    destruct (is_ t closeParenthesis) eqn:Ep; simpl in H.
    + inversion H; subst. rewrite (tokensFrom_Some _ _ Ec). simpl. rewrite Ep.
      destruct t as [[] ? ? ?]; try discriminate Ep. reflexivity.
    + rewrite (advance_Some _ _ Ec) in H. simpl in H. apply IH in H.
      simpl. rewrite Ep. exact H.
  - inversion H; subst. rewrite (tokensFrom_None _ Ec). reflexivity.
Qed.

(** The scan against the spec's span: what the three variables hold when
    the loop is left, and where it is left. *)
Lemma scan_span fuel : forall s c s' c',
  scan fuel s c = Returns s' c' ->
  let span := spanTokens false (tokensFrom tokens c) in
  ruleStart s' = match ruleStart s with Some x => Some x | None => hd_error span end
  /\ ruleEnd s' = last (map Some span) (ruleEnd s)
  /\ colon' s' = last (map Some (filter (fun t => is_ t colon) span)) (colon' s)
  /\ c <= c'
  /\ match currentToken c' with
     | Some t => is_ t openBrace || is_ t propertyBoundary = true
     | None => True
     end.
Proof.
  induction fuel as [|fuel IH]; simpl; intros s c s' c' H; [discriminate|].
  destruct (currentToken c) as [t|] eqn:Ec.
  2:{ inversion H; subst. rewrite (tokensFrom_None _ Ec), Ec. simpl.
      destruct (ruleStart s'); auto. }
  rewrite (tokensFrom_Some _ _ Ec). simpl spanTokens.
  destruct (is_ t whitespace) eqn:Ew.
  { rewrite (advance_Some _ _ Ec) in H. simpl in H. apply IH in H.
    destruct H as (H1 & H2 & H3 & H4 & H5). repeat split; auto. lia. }
  destruct (is_ t openParenthesis) eqn:Eo.
  { destruct (skipToCloseParenthesis fuel c) as [u c1| |] eqn:Es; try discriminate.
    pose proof (skipToCloseParenthesis_span _ _ _ _ Es) as Hs.
    rewrite (tokensFrom_Some _ _ Ec) in Hs. simpl in Hs.
    assert (Ep : is_ t closeParenthesis = false)
      by (destruct t as [[] ? ? ?]; try discriminate Eo; reflexivity).
    rewrite Ep in Hs. rewrite Hs.
    apply skipToCloseParenthesis_advances in Es. destruct Es as [Es _].
    apply IH in H. destruct H as (H1 & H2 & H3 & H4 & H5).
    repeat split; auto. lia. }
  destruct (is_ t openBrace || is_ t propertyBoundary) eqn:Eb.
  { inversion H; subst. rewrite Ec, Eb. simpl.
    destruct (ruleStart s'); auto. }
  rewrite (advance_Some _ _ Ec) in H.
  assert (Hlast : forall d,
    last (map Some (filter (fun t => is_ t colon)
                      (t :: spanTokens false (tokensFrom tokens (S c))))) d
    = last (map Some (filter (fun t => is_ t colon)
                        (spanTokens false (tokensFrom tokens (S c)))))
           (if is_ t colon then Some t else d)).
  { intros d. simpl filter. destruct (is_ t colon); [|reflexivity].
    simpl map. apply last_cons. }
  destruct (ruleStart s) as [rs|] eqn:Ers; apply IH in H; cbv zeta in H;
    destruct H as (H1 & H2 & H3 & H4 & H5); cbv zeta;
    rewrite Hlast; simpl map; rewrite last_cons;
    (repeat split; [auto | auto | auto | lia | auto]).
Qed.

Lemma scan_returns fuel : forall s c,
  length tokens - c + 2 <= fuel ->
  exists s' c', scan fuel s c = Returns s' c'.
Proof.
  induction fuel as [|fuel IH]; simpl; intros s c H; [lia|].
  destruct (currentToken c) as [t|] eqn:Ec; [|eauto].
  pose proof (tokenAt_Some_lt _ _ Ec) as Hlt.
  destruct (is_ t whitespace).
  { rewrite (advance_Some _ _ Ec). simpl. apply IH. lia. }
  destruct (is_ t openParenthesis) eqn:Eo.
  { destruct (skipToCloseParenthesis_returns fuel c) as [c1 Es]; [lia|].
    rewrite Es.
    apply skipToCloseParenthesis_advances in Es. destruct Es as [_ Es].
    assert (c < c1).
    { apply (Es t Ec). destruct t as [[] ? ? ?]; try discriminate Eo; reflexivity. }
    apply IH. lia. }
  destruct (is_ t openBrace || is_ t propertyBoundary); [eauto|].
  rewrite (advance_Some _ _ Ec).
  destruct (ruleStart s); apply IH; lia.
Qed.

(** Entered at a word token, the scan records that token as [ruleStart]. *)
Lemma scan_word fuel c w s' c' :
  currentToken c = Some w -> is_ w word = true ->
  scan fuel (mkScan None None None) c = Returns s' c' ->
  ruleStart s' = Some w /\ (exists re, ruleEnd s' = Some re) /\ c < c'.
Proof.
  intros Ec Ew H. destruct fuel as [|fuel]; simpl in H; [discriminate|].
  rewrite Ec in H. apply is_word_type in Ew.
  rewrite !(is_of_type _ _ _ Ew) in H. simpl in H.
  rewrite (advance_Some _ _ Ec) in H.
  apply scan_span in H. simpl in H. destruct H as (H1 & H2 & _ & H4 & _).
  repeat split; auto.
  rewrite H2. clear. generalize w.
  induction (spanTokens false (tokensFrom tokens (S c))) as [|a l IH]; intros d.
  - simpl. eauto.
  - change (map Some (a :: l)) with (Some a :: map Some l).
    rewrite last_cons. apply IH.
Qed.

(** *** The mutually recursive functions, one step unfolded *)

Local Abbreviation parseRule := (parseRule cssText tokens).
Local Abbreviation parseAtRule := (parseAtRule cssText tokens).
Local Abbreviation parseAtRule_loop := (parseAtRule_loop cssText tokens).
Local Abbreviation parseRulelist := (parseRulelist cssText tokens).
Local Abbreviation parseRulelist_loop := (parseRulelist_loop cssText tokens).
Local Abbreviation parseDeclarationOrRuleset :=
  (parseDeclarationOrRuleset cssText tokens).
Local Abbreviation parseUnknown := (parseUnknown cssText tokens).
Local Abbreviation parseComment := (parseComment cssText tokens).
Local Abbreviation declaration := (declaration cssText tokens).
Local Abbreviation atRule_result := (atRule_result cssText tokens).
Local Abbreviation previousOr := (previousOr tokens).
Local Abbreviation trimRange := (trimRange cssText).
Local Abbreviation parseRules_loop := (parseRules_loop cssText tokens).
Local Abbreviation parseRules := (parseRules cssText tokens).
Local Abbreviation parseStylesheet := (parseStylesheet cssText tokens).

Lemma parseRule_S fuel c :
  parseRule (S fuel) c =
  match currentToken c with
  | None => Returns None c
  | Some token =>
      if is_ token whitespace then Returns None (snd (advance c))
      else if is_ token comment then parseComment c
      else if is_ token word then parseDeclarationOrRuleset fuel c
      else if is_ token propertyBoundary then parseUnknown fuel c
      else if is_ token at_ then parseAtRule fuel c
      else parseUnknown fuel c
  end.
Proof. reflexivity. Qed.

Lemma parseAtRule_S fuel c :
  parseAtRule (S fuel) c =
  match currentToken c with
  | None => Returns None c
  | Some t =>
      match parseAtRule_loop fuel (mkAtState None None None None None) c with
      | Returns s c' => atRule_result (start t) s c'
      | Throws e => Throws e
      | OutOfFuel => OutOfFuel
      end
  end.
Proof. reflexivity. Qed.

Lemma parseAtRule_loop_S fuel s c :
  parseAtRule_loop (S fuel) s c =
  match currentToken c with
  | None => Returns s c
  | Some t =>
      if is_ t whitespace then parseAtRule_loop fuel s (snd (advance c))
      else if negb (truthy (name s)) && is_ t at_ then
        let c1 := snd (advance c) in
        let start' := currentToken c1 in
        match words_loop fuel None c1 with
        | Returns end' c2 =>
            match start' with
            | None => Throws startTokenIsNull
            | Some st =>
                let nameRange := getRange st end' in
                let name := text_slice cssText nameRange in
                parseAtRule_loop fuel
                  (mkAtState (Some name) (Some nameRange) (rulelist s)
                             (parametersStart s) (parametersEnd s)) c2
            end
        | Throws e => Throws e
        | OutOfFuel => OutOfFuel
        end
      else if is_ t openBrace then
        match parseRulelist fuel c with
        | Returns rl c' =>
            Returns (mkAtState (name s) (nameRange s) (Some rl)
                               (parametersStart s) (parametersEnd s)) c'
        | Throws e => Throws e
        | OutOfFuel => OutOfFuel
        end
      else if is_ t propertyBoundary then Returns s (snd (advance c))
      else
        match parametersStart s with
        | None =>
            let (ps, c') := advance c in
            parseAtRule_loop fuel
              (mkAtState (name s) (nameRange s) (rulelist s) ps
                         (parametersEnd s)) c'
        | Some _ =>
            let (pe, c') := advance c in
            parseAtRule_loop fuel
              (mkAtState (name s) (nameRange s) (rulelist s)
                         (parametersStart s) pe) c'
        end
  end.
Proof. reflexivity. Qed.

Lemma parseRulelist_S fuel c :
  parseRulelist (S fuel) c =
  match currentToken c with
  | None => Throws currentTokenIsNull
  | Some t =>
      match parseRulelist_loop fuel [] (snd (advance c)) with
      | Returns (rules, endToken) c2 =>
          Returns (mkRulelist rules
                     (Range.mk (start t)
                               (match endToken with
                                | Some e => end_ e
                                | None => String.length cssText
                                end))) c2
      | Throws e => Throws e
      | OutOfFuel => OutOfFuel
      end
  end.
Proof. reflexivity. Qed.

Lemma parseRulelist_loop_S fuel rules c :
  parseRulelist_loop (S fuel) rules c =
  match currentToken c with
  | None => Returns (rules, None) c
  | Some t =>
      if is_ t closeBrace then Returns (rules, Some t) (snd (advance c))
      else
        match parseRule fuel c with
        | Returns rule c' => parseRulelist_loop fuel (push rules rule) c'
        | Throws e => Throws e
        | OutOfFuel => OutOfFuel
        end
  end.
Proof. reflexivity. Qed.

(** What parseDeclarationOrRuleset does once the scan has stopped at the
    token [t] with the variables [s]. *)
Lemma parseDeclarationOrRuleset_S fuel c :
  parseDeclarationOrRuleset (S fuel) c =
  match scan fuel (mkScan None None None) c with
  | Returns s c =>
      match currentToken c with
      | None => Returns None c
      | Some t =>
          if is_ t propertyBoundary then declaration s t c
          else if match colon' s, ruleEnd s with
                  | Some co, Some re => same co re
                  | _, _ => false
                  end
          then
            match parseRulelist fuel c with
            | Returns rulelist c1 =>
                match currentToken c1 with
                | None => Throws currentTokenIsNull
                | Some t1 =>
                    let c2 := if is_ t1 semicolon then snd (advance c1) else c1 in
                    match ruleStart s, ruleEnd s with
                    | Some rs, Some re =>
                        let nameRange := getRange rs (previous re) in
                        Returns (Some (Declaration (text_slice cssText nameRange)
                                         (Some (Mixin rulelist)) nameRange
                                         (trimRange
                                            (getRange rs (previousOr c2 (ruleEnd s))))))
                                c2
                    | _, _ => Throws ruleStartIsNull
                    end
                end
            | Throws e => Throws e
            | OutOfFuel => OutOfFuel
            end
          else
            match ruleStart s with
            | None => Throws ruleStartIsNull
            | Some rs =>
                let selectorRange := getRange rs (ruleEnd s) in
                match parseRulelist fuel c with
                | Returns rulelist c1 =>
                    Returns (Some (Ruleset (text_slice cssText selectorRange)
                                     rulelist selectorRange
                                     (Range.mk (start rs)
                                        match currentToken c1 with
                                        | Some t1 =>
                                            match previous t1 with
                                            | Some p => end_ p
                                            | None => end_ rs
                                            end
                                        | None => String.length cssText
                                        end))) c1
                | Throws e => Throws e
                | OutOfFuel => OutOfFuel
                end
            end
      end
  | Throws e => Throws e
  | OutOfFuel => OutOfFuel
  end.
Proof. reflexivity. Qed.

(** *** Progress: what a call consumes *)

Lemma parseComment_progress c :
  after (parseComment c) (fun c' => c <= c' /\ (currentToken c <> None -> c < c')).
Proof.
  unfold parseComment. destruct (currentToken c) as [t|] eqn:Ec.
  - rewrite (advance_Some _ _ Ec). simpl. split; intros; lia.
  - rewrite (advance_None _ Ec). simpl. split; [lia|congruence].
Qed.

Lemma parseUnknown_progress fuel c :
  after (parseUnknown fuel c)
        (fun c' => c <= c' /\ (currentToken c <> None -> c < c')).
Proof.
  unfold parseUnknown. destruct (currentToken c) as [t|] eqn:Ec.
  - rewrite (advance_Some _ _ Ec).
    destruct (parseUnknown_loop fuel None (S c)) as [e c'| |] eqn:El; simpl; auto.
    apply parseUnknown_loop_advances in El. split; intros; lia.
  - rewrite (advance_None _ Ec). simpl. split; [lia|congruence].
Qed.

Lemma declaration_progress s t c :
  currentToken c = Some t -> after (declaration s t c) (fun c' => c <= c').
Proof.
  intros Ec. unfold declaration. destruct (ruleStart s); simpl; auto.
  destruct (is_ t semicolon); [rewrite (advance_Some _ _ Ec); simpl|]; lia.
Qed.

Lemma atRule_result_progress st s c :
  after (atRule_result st s c) (fun c' => c' = c).
Proof.
  unfold atRule_result.
  destruct (name s) as [nm|]; simpl; auto.
  destruct (nameRange s) as [nr|]; simpl; auto.
  destruct (currentToken c) as [tk|]; simpl; auto.
  destruct (previous tk); simpl; auto.
Qed.

Lemma after_impl (A : Type) (o : Outcome A) (P Q : nat -> Prop) :
  (forall c, P c -> Q c) -> after o P -> after o Q.
Proof. destruct o; simpl; auto. Qed.

Lemma progress fuel :
  (forall c, after (parseRule fuel c)
                   (fun c' => c <= c' /\ (currentToken c <> None -> c < c')))
  /\ (forall c, after (parseAtRule fuel c)
                   (fun c' => c <= c' /\ (currentToken c <> None -> c < c')))
  /\ (forall s c, after (parseAtRule_loop fuel s c)
                   (fun c' => c <= c' /\ (currentToken c <> None -> c < c')))
  /\ (forall c, after (parseRulelist fuel c) (fun c' => c < c'))
  /\ (forall rules c, after (parseRulelist_loop fuel rules c) (fun c' => c <= c'))
  /\ (forall c, after (parseDeclarationOrRuleset fuel c)
                   (fun c' => c <= c' /\
                      (forall t, currentToken c = Some t -> is_ t word = true -> c < c'))).
Proof.
  induction fuel as [|fuel (IHr & IHa & IHal & IHl & IHll & IHd)];
    [repeat split; intros; exact I|].
  repeat apply conj.
  - (* parseRule *)
    intros c. rewrite parseRule_S.
    destruct (currentToken c) as [t|] eqn:Ec; [|simpl; split; [lia|congruence]].
    destruct (is_ t whitespace).
    { rewrite (advance_Some _ _ Ec). simpl. split; intros; lia. }
    destruct (is_ t comment).
    { generalize (parseComment_progress c). rewrite Ec. exact (fun H => H). }
    destruct (is_ t word) eqn:Ew.
    { generalize (IHd c). apply after_impl. intros c' [H1 H2].
      split; [lia|]. intros _. eauto. }
    destruct (is_ t propertyBoundary).
    { generalize (parseUnknown_progress fuel c). rewrite Ec. exact (fun H => H). }
    destruct (is_ t at_) eqn:Ea.
    { generalize (IHa c). rewrite Ec. exact (fun H => H). }
    generalize (parseUnknown_progress fuel c). rewrite Ec. exact (fun H => H).
  - (* parseAtRule *)
    intros c. rewrite parseAtRule_S.
    destruct (currentToken c) as [t|] eqn:Ec;
      [|simpl; split; [lia|congruence]].
    generalize (IHal (mkAtState None None None None None) c).
    destruct (parseAtRule_loop fuel _ c) as [s c1| |]; simpl; auto.
    rewrite Ec. intros [H1 H2].
    generalize (atRule_result_progress (start t) s c1).
    apply after_impl. intros c' ->. split; [lia|]. exact H2.
  - (* parseAtRule_loop *)
    intros s c. rewrite parseAtRule_loop_S.
    destruct (currentToken c) as [t|] eqn:Ec;
      [|simpl; split; [lia|congruence]].
    destruct (is_ t whitespace) eqn:Ew.
    { rewrite (advance_Some _ _ Ec). simpl.
      generalize (IHal s (S c)). apply after_impl. intros c' [H1 _].
      split; intros; lia. }
    destruct (negb (truthy (name s)) && is_ t at_) eqn:En.
    { rewrite (advance_Some _ _ Ec). cbv zeta. simpl snd.
      destruct (words_loop fuel None (S c)) as [e c2| |] eqn:Ewl; simpl; auto.
      apply words_loop_advances in Ewl.
      destruct (currentToken (S c)) as [st|]; simpl; auto.
      match goal with |- after (parseAtRule_loop fuel ?s' c2) _ =>
        generalize (IHal s' c2) end.
      apply after_impl. intros c' [H1 _]. split; intros; lia. }
    destruct (is_ t openBrace).
    { generalize (IHl c). destruct (parseRulelist fuel c); simpl; auto.
      intros H. split; intros; lia. }
    destruct (is_ t propertyBoundary).
    { rewrite (advance_Some _ _ Ec). simpl. split; intros; lia. }
    rewrite (advance_Some _ _ Ec).
    destruct (parametersStart s);
      match goal with |- after (parseAtRule_loop fuel ?s' (S c)) _ =>
        generalize (IHal s' (S c)) end;
      apply after_impl; intros c' [H1 _]; split; intros; lia.
  - (* parseRulelist *)
    intros c. rewrite parseRulelist_S.
    destruct (currentToken c) as [t|] eqn:Ec; [|exact I].
    rewrite (advance_Some _ _ Ec). simpl snd.
    generalize (IHll [] (S c)).
    destruct (parseRulelist_loop fuel [] (S c)) as [[rules e] c2| |]; simpl; auto.
  - (* parseRulelist_loop *)
    intros rules c. rewrite parseRulelist_loop_S.
    destruct (currentToken c) as [t|] eqn:Ec; [|simpl; lia].
    destruct (is_ t closeBrace).
    { rewrite (advance_Some _ _ Ec). simpl. lia. }
    generalize (IHr c). destruct (parseRule fuel c) as [r c1| |]; simpl; auto.
    intros [H1 _]. generalize (IHll (push rules r) c1).
    apply after_impl. intros; lia.
  - (* parseDeclarationOrRuleset *)
    intros c. rewrite parseDeclarationOrRuleset_S.
    destruct (scan fuel (mkScan None None None) c) as [s c1| |] eqn:Es; simpl; auto.
    assert (Hc : c <= c1 /\
                 (forall t, currentToken c = Some t -> is_ t word = true -> c < c1)).
    { split.
      - apply scan_span in Es. cbv zeta in Es. tauto.
      - intros w Ht Hw. eapply scan_word in Es; eauto. tauto. }
    destruct Hc as [Hc1 Hc2].
    assert (Hweak : forall c', c1 <= c' ->
              c <= c' /\
              (forall t, currentToken c = Some t -> is_ t word = true -> c < c')).
    { intros c' Hle. split; [lia|]. intros t Ht Hw.
      specialize (Hc2 t Ht Hw). lia. }
    destruct (currentToken c1) as [t|] eqn:Ec1; [|simpl; apply Hweak; lia].
    destruct (is_ t propertyBoundary).
    { generalize (declaration_progress s t c1 Ec1). apply after_impl. exact Hweak. }
    destruct (match colon' s, ruleEnd s with
              | Some co, Some re => same co re
              | _, _ => false
              end).
    + generalize (IHl c1). destruct (parseRulelist fuel c1) as [rl c2| |]; simpl; auto.
      intros Hlt. destruct (currentToken c2) as [t1|] eqn:Ec2; simpl; auto.
      destruct (ruleStart s); simpl; auto. destruct (ruleEnd s); simpl; auto.
      apply Hweak. destruct (is_ t1 semicolon);
        [rewrite (advance_Some _ _ Ec2); simpl|]; lia.
    + destruct (ruleStart s); simpl; auto.
      generalize (IHl c1). destruct (parseRulelist fuel c1) as [rl c2| |]; simpl; auto.
      intros Hlt. apply Hweak. lia.
Qed.

(** *** Termination: the budget that is enough *)

Lemma parseUnknown_terminates fuel c :
  length tokens - c <= fuel -> parseUnknown fuel c <> OutOfFuel.
Proof.
  intros H. unfold parseUnknown.
  destruct (currentToken c) as [t|] eqn:Ec.
  - rewrite (advance_Some _ _ Ec).
    destruct (parseUnknown_loop_returns fuel None (S c)) as (e & c' & ->);
      [|discriminate].
    apply tokenAt_Some_lt in Ec. lia.
  - rewrite (advance_None _ Ec). discriminate.
Qed.

Lemma declaration_terminates s t c : declaration s t c <> OutOfFuel.
Proof. unfold declaration. destruct (ruleStart s); discriminate. Qed.

Lemma atRule_result_terminates st s c : atRule_result st s c <> OutOfFuel.
Proof.
  unfold atRule_result.
  destruct (name s) as [nm|]; [|discriminate].
  destruct (nameRange s) as [nr|]; [|discriminate].
  destruct (currentToken c) as [tk|]; [|discriminate].
  destruct (previous tk); discriminate.
Qed.

Lemma terminates fuel :
  (forall c, 5 * (length tokens - c) + 9 <= fuel ->
             parseRule fuel c <> OutOfFuel)
  /\ (forall c, 5 * (length tokens - c) + 8 <= fuel ->
                parseAtRule fuel c <> OutOfFuel)
  /\ (forall s c, 5 * (length tokens - c) + 7 <= fuel ->
                  parseAtRule_loop fuel s c <> OutOfFuel)
  /\ (forall c, 5 * (length tokens - c) + 6 <= fuel ->
                parseRulelist fuel c <> OutOfFuel)
  /\ (forall rules c, 5 * (length tokens - c) + 10 <= fuel ->
                      parseRulelist_loop fuel rules c <> OutOfFuel)
  /\ (forall c, 5 * (length tokens - c) + 7 <= fuel ->
                parseDeclarationOrRuleset fuel c <> OutOfFuel).
Proof.
  induction fuel as [|fuel (IHr & IHa & IHal & IHl & IHll & IHd)];
    [repeat split; intros; lia|].
  destruct (progress fuel) as (Pr & Pa & Pal & Pl & Pll & Pd).
  repeat apply conj.
  - (* parseRule *)
    intros c H. rewrite parseRule_S.
    destruct (currentToken c) as [t|] eqn:Ec; [|discriminate].
    destruct (is_ t whitespace); [discriminate|].
    destruct (is_ t comment).
    { unfold parseComment. rewrite (advance_Some _ _ Ec). discriminate. }
    destruct (is_ t word); [apply IHd; lia|].
    destruct (is_ t propertyBoundary); [apply parseUnknown_terminates; lia|].
    destruct (is_ t at_); [apply IHa; lia|].
    apply parseUnknown_terminates; lia.
  - (* parseAtRule *)
    intros c H. rewrite parseAtRule_S.
    destruct (currentToken c) as [t|] eqn:Ec; [|discriminate].
    assert (Hne := IHal (mkAtState None None None None None) c ltac:(lia)).
    destruct (parseAtRule_loop fuel _ c) as [s c1| |];
      [apply atRule_result_terminates | discriminate | congruence].
  - (* parseAtRule_loop *)
    intros s c H. rewrite parseAtRule_loop_S.
    destruct (currentToken c) as [t|] eqn:Ec; [|discriminate].
    pose proof (tokenAt_Some_lt _ _ Ec) as Hlt.
    destruct (is_ t whitespace).
    { rewrite (advance_Some _ _ Ec). simpl. apply IHal. lia. }
    destruct (negb (truthy (name s)) && is_ t at_).
    { rewrite (advance_Some _ _ Ec). cbv zeta. simpl snd.
      destruct (words_loop_returns fuel None (S c)) as (e & c2 & Ewl); [lia|].
      rewrite Ewl. apply words_loop_advances in Ewl.
      destruct (currentToken (S c)) as [st|]; [|discriminate].
      apply IHal. lia. }
    destruct (is_ t openBrace).
    { assert (Hne := IHl c ltac:(lia)).
      destruct (parseRulelist fuel c); [discriminate | discriminate | congruence]. }
    destruct (is_ t propertyBoundary); [discriminate|].
    rewrite (advance_Some _ _ Ec).
    destruct (parametersStart s); apply IHal; lia.
  - (* parseRulelist *)
    intros c H. rewrite parseRulelist_S.
    destruct (currentToken c) as [t|] eqn:Ec; [|discriminate].
    pose proof (tokenAt_Some_lt _ _ Ec) as Hlt.
    rewrite (advance_Some _ _ Ec). simpl snd.
    assert (Hne := IHll [] (S c) ltac:(lia)).
    destruct (parseRulelist_loop fuel [] (S c)) as [[rules e] c2| |];
      [discriminate | discriminate | congruence].
  - (* parseRulelist_loop *)
    intros rules c H. rewrite parseRulelist_loop_S.
    destruct (currentToken c) as [t|] eqn:Ec; [|discriminate].
    pose proof (tokenAt_Some_lt _ _ Ec) as Hlt.
    destruct (is_ t closeBrace); [discriminate|].
    assert (Hne := IHr c ltac:(lia)). specialize (Pr c).
    destruct (parseRule fuel c) as [r c1| |];
      [|discriminate | congruence].
    simpl in Pr. destruct Pr as [_ Pr].
    assert (c < c1) by (apply Pr; congruence).
    apply IHll. lia.
  - (* parseDeclarationOrRuleset *)
    intros c H. rewrite parseDeclarationOrRuleset_S.
    destruct (scan_returns fuel (mkScan None None None) c) as (s & c1 & Es); [lia|].
    rewrite Es. apply scan_span in Es. cbv zeta in Es.
    destruct Es as (_ & _ & _ & Hle & _).
    destruct (currentToken c1) as [t|] eqn:Ec1; [|discriminate].
    destruct (is_ t propertyBoundary); [apply declaration_terminates|].
    destruct (match colon' s, ruleEnd s with
              | Some co, Some re => same co re
              | _, _ => false
              end).
    + assert (Hne := IHl c1 ltac:(lia)).
      destruct (parseRulelist fuel c1) as [rl c2| |];
        [|discriminate | congruence].
      destruct (currentToken c2); [|discriminate].
      destruct (ruleStart s); [|discriminate].
      destruct (ruleEnd s); discriminate.
    + destruct (ruleStart s); [|discriminate].
      assert (Hne := IHl c1 ltac:(lia)).
      destruct (parseRulelist fuel c1) as [rl c2| |];
        [discriminate | discriminate | congruence].
Qed.

Lemma parseRules_loop_terminates fuel : forall rules c,
  5 * (length tokens - c) + 10 <= fuel ->
  parseRules_loop fuel rules c <> OutOfFuel.
Proof.
  induction fuel as [|fuel IH]; intros rules c H; [lia|]. simpl.
  destruct (currentToken c) as [t|] eqn:Ec; [|discriminate].
  pose proof (tokenAt_Some_lt _ _ Ec) as Hlt.
  destruct (terminates fuel) as (Tr & _).
  destruct (progress fuel) as (Pr & _).
  assert (Hne := Tr c ltac:(lia)). specialize (Pr c).
  destruct (parseRule fuel c) as [r c1| |];
    [|discriminate | congruence].
  simpl in Pr. destruct Pr as [_ Pr].
  assert (c < c1) by (apply Pr; congruence).
  apply IH. lia.
Qed.

(** *** Which reads on [null] can happen *)

Lemma previous_Some c t :
  currentToken c = Some t -> 0 < c ->
  exists p, previous t = Some p /\ index p = c - 1.
Proof.
  intros Ec Hc. pose proof (tokenAt_index _ _ Ec) as Hi.
  pose proof (tokenAt_Some_lt _ _ Ec) as Hlt.
  unfold previous. rewrite Hi. destruct c as [|c]; [lia|].
  destruct (tokenAt_lt_Some c) as [p Hp]; [lia|].
  exists p. split; [exact Hp|]. apply tokenAt_index in Hp. lia.
Qed.

Lemma parseUnknown_loop_no_throw fuel : forall e c x,
  parseUnknown_loop fuel e c <> Throws x.
Proof.
  induction fuel as [|fuel IH]; simpl; intros e c x; [discriminate|].
  destruct (currentToken c) as [t|] eqn:Ec; [|discriminate].
  destruct (is_ t boundary); [|discriminate].
  rewrite (advance_Some _ _ Ec). apply IH.
Qed.

Lemma parseUnknown_no_throw fuel c x : parseUnknown fuel c <> Throws x.
Proof.
  unfold parseUnknown.
  destruct (advance c) as [[st|] c1]; [|discriminate].
  pose proof (parseUnknown_loop_no_throw fuel None c1) as H.
  destruct (parseUnknown_loop fuel None c1); try discriminate.
  intros E. inversion E; subst. eapply H; reflexivity.
Qed.

Lemma parseComment_no_throw c x : parseComment c <> Throws x.
Proof.
  unfold parseComment. destruct (advance c) as [[st|] c1]; discriminate.
Qed.

Lemma words_loop_no_throw fuel : forall e c x, words_loop fuel e c <> Throws x.
Proof.
  induction fuel as [|fuel IH]; simpl; intros e c x; [discriminate|].
  destruct (currentToken c) as [t|] eqn:Ec; [|discriminate].
  destruct (is_ t word); [|discriminate].
  rewrite (advance_Some _ _ Ec). apply IH.
Qed.

Lemma skipToCloseParenthesis_no_throw fuel : forall c x,
  skipToCloseParenthesis fuel c <> Throws x.
Proof.
  induction fuel as [|fuel IH]; simpl; intros c x; [discriminate|].
  destruct (currentToken c) as [t|] eqn:Ec; [|discriminate].
  destruct (is_ t closeParenthesis); simpl; [discriminate|]. apply IH.
Qed.

Lemma scan_no_throw fuel : forall s c x, scan fuel s c <> Throws x.
Proof.
  induction fuel as [|fuel IH]; simpl; intros s c x; [discriminate|].
  destruct (currentToken c) as [t|] eqn:Ec; [|discriminate].
  destruct (is_ t whitespace); [apply IH|].
  destruct (is_ t openParenthesis).
  { pose proof (skipToCloseParenthesis_no_throw fuel c) as H.
    destruct (skipToCloseParenthesis fuel c); [apply IH| |discriminate].
    intros _. eapply H; reflexivity. }
  destruct (is_ t openBrace || is_ t propertyBoundary); [discriminate|].
  rewrite (advance_Some _ _ Ec). destruct (ruleStart s); apply IH.
Qed.

Lemma atRule_result_no_throw st s c x :
  0 < c -> atRule_result st s c <> Throws x.
Proof.
  intros Hc. unfold atRule_result.
  destruct (name s) as [nm|]; [|discriminate].
  destruct (nameRange s) as [nr|]; [|discriminate].
  destruct (currentToken c) as [tk|] eqn:Ec; [|discriminate].
  destruct (previous_Some _ _ Ec Hc) as (p & -> & _). discriminate.
Qed.

Lemma faults fuel :
  (forall c, failing (parseRule fuel c) reachable)
  /\ (forall c, failing (parseAtRule fuel c) reachable)
  /\ (forall s c, failing (parseAtRule_loop fuel s c) reachable)
  /\ (forall c, failing (parseRulelist fuel c) reachable)
  /\ (forall rules c, failing (parseRulelist_loop fuel rules c) reachable)
  /\ (forall c t, currentToken c = Some t -> is_ t word = true ->
                  failing (parseDeclarationOrRuleset fuel c) reachable).
Proof.
  induction fuel as [|fuel (IHr & IHa & IHal & IHl & IHll & IHd)];
    [repeat split; intros; exact I|].
  destruct (progress fuel) as (Pr & Pa & Pal & Pl & Pll & Pd).
  repeat apply conj.
  - (* parseRule *)
    intros c. rewrite parseRule_S.
    destruct (currentToken c) as [t|] eqn:Ec; [|exact I].
    destruct (is_ t whitespace); [exact I|].
    destruct (is_ t comment).
    { pose proof (parseComment_no_throw c) as H.
      destruct (parseComment c); simpl; auto. exfalso. eapply H; reflexivity. }
    destruct (is_ t word) eqn:Ew; [eapply IHd; eauto|].
    assert (Hu : failing (parseUnknown fuel c) reachable).
    { pose proof (parseUnknown_no_throw fuel c) as H.
      destruct (parseUnknown fuel c); simpl; auto. exfalso. eapply H; reflexivity. }
    destruct (is_ t propertyBoundary); [exact Hu|].
    destruct (is_ t at_); [apply IHa | exact Hu].
  - (* parseAtRule *)
    intros c. rewrite parseAtRule_S.
    destruct (currentToken c) as [t|] eqn:Ec; [|exact I].
    generalize (IHal (mkAtState None None None None None) c).
    generalize (Pal (mkAtState None None None None None) c).
    destruct (parseAtRule_loop fuel _ c) as [s c1| |]; simpl; auto.
    intros [_ Hlt] _.
    assert (0 < c1) by (assert (c < c1) by (apply Hlt; congruence); lia).
    pose proof (atRule_result_no_throw (start t) s c1) as H1.
    destruct (atRule_result (start t) s c1); simpl; auto.
    exfalso. eapply H1; eauto.
  - (* parseAtRule_loop *)
    intros s c. rewrite parseAtRule_loop_S.
    destruct (currentToken c) as [t|] eqn:Ec; [|exact I].
    destruct (is_ t whitespace); [apply IHal|].
    destruct (negb (truthy (name s)) && is_ t at_).
    { cbv zeta. pose proof (words_loop_no_throw fuel None (snd (advance c))) as H.
      destruct (words_loop fuel None (snd (advance c))) as [e c2| |]; simpl; auto.
      - destruct (currentToken (snd (advance c))); [apply IHal|].
        simpl. right. reflexivity.
      - exfalso. eapply H; reflexivity. }
    destruct (is_ t openBrace).
    { generalize (IHl c). destruct (parseRulelist fuel c); simpl; auto. }
    destruct (is_ t propertyBoundary); [exact I|].
    destruct (advance c) as [x c1]. destruct (parametersStart s); apply IHal.
  - (* parseRulelist *)
    intros c. rewrite parseRulelist_S.
    destruct (currentToken c) as [t|] eqn:Ec; [|simpl; left; reflexivity].
    generalize (IHll [] (snd (advance c))).
    destruct (parseRulelist_loop fuel [] (snd (advance c))) as [[rules e] c2| |];
      simpl; auto.
  - (* parseRulelist_loop *)
    intros rules c. rewrite parseRulelist_loop_S.
    destruct (currentToken c) as [t|] eqn:Ec; [|exact I].
    destruct (is_ t closeBrace); [exact I|].
    generalize (IHr c). destruct (parseRule fuel c) as [r c1| |]; simpl; auto.
  - (* parseDeclarationOrRuleset *)
    intros c w Ec Ew. rewrite parseDeclarationOrRuleset_S.
    pose proof (scan_no_throw fuel (mkScan None None None) c) as Hs.
    destruct (scan fuel (mkScan None None None) c) as [s c1| |] eqn:Es;
      [|exfalso; eapply Hs; reflexivity|exact I].
    destruct (scan_word _ _ _ _ _ Ec Ew Es) as (Hrs & [re Hre] & _).
    destruct (currentToken c1) as [t|] eqn:Ec1; [|exact I].
    destruct (is_ t propertyBoundary).
    { unfold declaration. rewrite Hrs. exact I. }
    rewrite Hrs, Hre.
    destruct (match colon' s with Some co => same co re | None => false end).
    + generalize (IHl c1). destruct (parseRulelist fuel c1) as [rl c2| |]; simpl; auto.
      intros _. destruct (currentToken c2); simpl; auto. left. reflexivity.
    + generalize (IHl c1). destruct (parseRulelist fuel c1) as [rl c2| |]; simpl; auto.
Qed.

(** *** parseRules *)

Lemma parseRules_loop_faults fuel : forall rules c,
  failing (parseRules_loop fuel rules c) reachable.
Proof.
  induction fuel as [|fuel IH]; intros rules c; [exact I|]. simpl.
  destruct (currentToken c) as [t|] eqn:Ec; [|exact I].
  destruct (faults fuel) as (Fr & _). specialize (Fr c).
  destruct (parseRule fuel c) as [r c1| |]; simpl; auto.
Qed.

Lemma parseRules_iterations_bound fuel : forall c,
  parseRules_iterations cssText tokens fuel c <= length tokens - c.
Proof.
  induction fuel as [|fuel IH]; intros c; simpl; [lia|].
  destruct (currentToken c) as [t|] eqn:Ec; [|lia].
  pose proof (tokenAt_Some_lt _ _ Ec) as Hlt.
  destruct (progress fuel) as (Pr & _). specialize (Pr c).
  destruct (parseRule fuel c) as [r c1| |]; try lia.
  simpl in Pr. destruct Pr as [_ Pr].
  assert (c < c1) by (apply Pr; congruence).
  specialize (IH c1). lia.
Qed.

(** The references that the scan holds are tokens it has passed. *)
Lemma scan_refs fuel : forall s c s' c',
  scan fuel s c = Returns s' c' ->
  (forall x, colon' s' = Some x ->
     colon' s = Some x \/
     (c <= index x < c' /\ tokenAt (index x) = Some x /\ is_ x colon = true))
  /\ (forall x, ruleEnd s' = Some x ->
     ruleEnd s = Some x \/ (c <= index x < c' /\ tokenAt (index x) = Some x)).
Proof.
  induction fuel as [|fuel IH]; simpl; intros s c s' c' H; [discriminate|].
  destruct (currentToken c) as [t|] eqn:Ec.
  2:{ inversion H; subst. split; intros; left; assumption. }
  destruct (is_ t whitespace).
  { rewrite (advance_Some _ _ Ec) in H. simpl in H. apply IH in H.
    destruct H as [H1 H2].
    split; intros x Hx; [destruct (H1 x Hx) as [?|(? & ? & ?)]
                        |destruct (H2 x Hx) as [?|(? & ?)]];
      auto; right; repeat split; auto; lia. }
  destruct (is_ t openParenthesis).
  { destruct (skipToCloseParenthesis fuel c) as [u c1| |] eqn:Es; try discriminate.
    apply skipToCloseParenthesis_advances in Es. destruct Es as [Es _].
    apply IH in H. destruct H as [H1 H2].
    split; intros x Hx; [destruct (H1 x Hx) as [?|(? & ? & ?)]
                        |destruct (H2 x Hx) as [?|(? & ?)]];
      auto; right; repeat split; auto; lia. }
  destruct (is_ t openBrace || is_ t propertyBoundary).
  { inversion H; subst. split; intros; left; assumption. }
  rewrite (advance_Some _ _ Ec) in H.
  pose proof (tokenAt_index _ _ Ec) as Hi.
  assert (Hle : S c <= c').
  { destruct (ruleStart s); apply scan_span in H; cbv zeta in H; tauto. }
  assert (Ht : c <= index t < c' /\ tokenAt (index t) = Some t).
  { rewrite Hi. split; [lia|exact Ec]. }
  destruct (ruleStart s); apply IH in H; simpl in H; destruct H as [H1 H2];
    (split; intros x Hx;
     [destruct (H1 x Hx) as [E|(? & ? & ?)];
      [destruct (is_ t colon) eqn:Eco;
       [inversion E; subst; right; tauto | left; exact E]
      |right; repeat split; auto; lia]
     |destruct (H2 x Hx) as [E|(? & ?)];
      [inversion E; subst; right; tauto
      |right; repeat split; auto; lia]]).
Qed.

End ParserFacts.

(** ** parse as a whole *)

Lemma parse_range cssText st c :
  parse cssText = Returns st c -> range st = Range.mk 0 (String.length cssText).
Proof.
  unfold parse, parseStylesheet. destruct (parseRules _ _ _ _); intros H;
    inversion H; reflexivity.
Qed.

Lemma parse_faults cssText e : parse cssText = Throws e -> reachable e.
Proof.
  unfold parse, parseStylesheet, parseRules. intros H.
  pose proof (parseRules_loop_faults cssText (tokenize cssText)
                (budget (length (tokenize cssText))) [] 0) as F.
  destruct (parseRules_loop _ _ _ _ _); inversion H; subst. exact F.
Qed.

(** ** The declaration branch *)

(** C4.  When parseDeclarationOrRuleset is entered at a word token and its
    scan stops at a token that answers for [propertyBoundary], the result is a
    Declaration.  Its name range starts at [ruleStart] (the word) and ends at
    the end of the token before the recorded colon, or at the end of
    [ruleEnd] when no colon was recorded.  When a colon was recorded it has a
    following token, and the value is the Expression whose text is the text
    from that token to [ruleEnd], trimmed; without a colon there is no value.
    The cursor moves past the stop token exactly when it is a semicolon.
    The text [a: b;] yields the one Declaration [a] with the Expression [b]. *)
Theorem declaration_at_propertyBoundary :
  (forall cssText tokens fuel c w s c1 stop,
      currentToken tokens c = Some w -> is_ w word = true ->
      scan tokens fuel (mkScan None None None) c = Returns s c1 ->
      currentToken tokens c1 = Some stop -> is_ stop propertyBoundary = true ->
      exists re nameEnd value,
        ruleStart s = Some w /\ ruleEnd s = Some re /\
        (let c2 := if is_ stop semicolon then S c1 else c1 in
         let nameRange := Range.mk (start w) nameEnd in
         parseDeclarationOrRuleset cssText tokens (S fuel) c =
         Returns (Some (Declaration
                          (text_slice cssText nameRange) value nameRange
                          (trimRange cssText
                             (getRange w (previousOr tokens c2 (Some re))))))
                 c2) /\
        match colon' s with
        | Some co =>
            exists p n,
              previous tokens co = Some p /\ next tokens co = Some n /\
              nameEnd = end_ p /\
              let r := trimRange cssText (Range.mk (start n) (end_ re)) in
              value = Some (Expression (text_slice cssText r) r)
        | None => nameEnd = end_ re /\ value = None
        end)
  /\ parse "a: b;" =
     Returns (mkStylesheet
                [Declaration "a" (Some (Expression "b" (Range.mk 3 4)))
                             (Range.mk 0 1) (Range.mk 0 4)]
                (Range.mk 0 5)) 5.
Proof.
  split; [|vm_compute; reflexivity].
  intros cssText tokens fuel c w s c1 stop Ec Ew Es Ec1 Hstop.
  destruct (scan_word _ _ _ _ _ _ Ec Ew Es) as (Hrs & [re Hre] & Hlt).
  pose proof (scan_refs _ _ _ _ _ _ Es) as [Hco _].
  pose proof (tokenAt_Some_lt _ _ _ Ec1) as Hlen.
  rewrite parseDeclarationOrRuleset_S, Es, Ec1, Hstop.
  unfold declaration. rewrite Hrs, Hre.
  destruct (colon' s) as [co|] eqn:Eco.
  - destruct (Hco co eq_refl) as [E|(Hi & Hat & Hcol)]; [discriminate E|].
    assert (Hne : index co <> c).
    { intros E. rewrite E in Hat. unfold currentToken in Ec. rewrite Ec in Hat.
      inversion Hat; subst. apply is_word_type in Ew.
      rewrite (is_of_type _ _ _ Ew) in Hcol. discriminate Hcol. }
    destruct (previous_Some tokens (index co) co Hat) as (p & Hp & _); [lia|].
    destruct (tokenAt_lt_Some tokens (S (index co))) as [n Hn]; [lia|].
    unfold next. rewrite Hp, Hn.
    exists re, (end_ p), (Some (Expression
      (text_slice cssText (trimRange cssText (getRange n (Some re))))
      (trimRange cssText (getRange n (Some re))))).
    repeat split.
    + destruct (is_ stop semicolon); [rewrite (advance_Some _ _ _ Ec1)|]; reflexivity.
    + exists p, n. repeat split.
  - exists re, (end_ re), None. repeat split.
    destruct (is_ stop semicolon); [rewrite (advance_Some _ _ _ Ec1)|]; reflexivity.
Qed.

Lemma declaration_at_propertyBoundary_witness :
  exists d c2,
    parseDeclarationOrRuleset "a: b;" (tokenize "a: b;") 8 0 = Returns (Some d) c2.
Proof.
  destruct (proj1 declaration_at_propertyBoundary "a: b;"%string
              (tokenize "a: b;") 7 0 (mkToken word 0 1 0)
              (mkScan (Some (mkToken word 0 1 0)) (Some (mkToken word 3 4 3))
                      (Some (mkToken colon 1 2 1)))
              4 (mkToken semicolon 4 5 4)
              eq_refl eq_refl eq_refl eq_refl eq_refl)
    as (re & nameEnd & value & _ & _ & H & _).
  cbv zeta in H. eexists. eexists. exact H.
Defined.

(** ** The scan that runs off the end of the input *)

(** C6.  When the scan of parseDeclarationOrRuleset leaves its loop because
    the input is exhausted ([currentToken] is [null]), the function returns
    [null]: no Declaration and no Ruleset is built.  That is the case, in
    particular, whenever no token from the cursor on is an [openBrace] or
    answers for [propertyBoundary]; the parse of [a:b] has no rule at all. *)
Theorem scan_to_end_of_input_returns_null :
  (forall cssText tokens fuel c s c1,
      scan tokens fuel (mkScan None None None) c = Returns s c1 ->
      currentToken tokens c1 = None ->
      parseDeclarationOrRuleset cssText tokens (S fuel) c = Returns None c1)
  /\ (forall cssText tokens fuel c,
      length tokens - c + 2 <= fuel ->
      (forall i t, c <= i -> tokenAt tokens i = Some t ->
                   is_ t openBrace || is_ t propertyBoundary = false) ->
      exists c1, currentToken tokens c1 = None /\
                 parseDeclarationOrRuleset cssText tokens (S fuel) c
                 = Returns None c1)
  /\ parse "a:b" = Returns (mkStylesheet [] (Range.mk 0 3)) 3.
Proof.
  split; [|split; [|vm_compute; reflexivity]].
  - intros cssText tokens fuel c s c1 Es Ec1.
    rewrite parseDeclarationOrRuleset_S, Es, Ec1. reflexivity.
  - intros cssText tokens fuel c Hfuel Hno.
    destruct (scan_returns tokens fuel (mkScan None None None) c Hfuel)
      as (s & c1 & Es).
    pose proof (scan_span _ _ _ _ _ _ Es) as Hs. cbv zeta in Hs.
    destruct Hs as (_ & _ & _ & Hle & Hstop).
    exists c1. rewrite parseDeclarationOrRuleset_S, Es.
    destruct (currentToken tokens c1) as [t|] eqn:Ec1; [|split; reflexivity].
    rewrite (Hno c1 t Hle Ec1) in Hstop. discriminate Hstop.
Qed.

Lemma scan_to_end_of_input_returns_null_witness :
  parseDeclarationOrRuleset "a:b" (tokenize "a:b") 6 0 = Returns None 3
  /\ exists c1, parseDeclarationOrRuleset "a:b" (tokenize "a:b") 6 0
                = Returns None c1.
Proof.
  split.
  - exact (proj1 scan_to_end_of_input_returns_null "a:b"%string (tokenize "a:b")
             5 0 (mkScan (Some (mkToken word 0 1 0)) (Some (mkToken word 2 3 2))
                         (Some (mkToken colon 1 2 1))) 3 eq_refl eq_refl).
  - destruct (proj1 (proj2 scan_to_end_of_input_returns_null) "a:b"%string
                (tokenize "a:b") 5 0) as (c1 & _ & H).
    + vm_compute. lia.
    + intros i t Hi. do 3 (destruct i as [|i]; [vm_compute; intros E; inversion E; reflexivity|]).
      vm_compute. destruct i; discriminate.
    + exists c1. exact H.
Defined.

(** ** ruleStart is never null *)

(** C10.  Entered at a word token, the scan of parseDeclarationOrRuleset
    leaves its loop with that token as [ruleStart] and with a [ruleEnd]; so
    parseDeclarationOrRuleset entered at a word token never reads
    [ruleStart] while it is [null], and neither parseRule (which enters it
    at word tokens only) nor parse ever fails that way. *)
Theorem ruleStart_is_never_null :
  (forall tokens fuel c w s c1,
      currentToken tokens c = Some w -> is_ w word = true ->
      scan tokens fuel (mkScan None None None) c = Returns s c1 ->
      ruleStart s = Some w /\ exists re, ruleEnd s = Some re)
  /\ (forall tokens fuel c w,
      currentToken tokens c = Some w -> is_ w word = true ->
      length tokens - c + 2 <= fuel ->
      exists s c1 re,
        scan tokens fuel (mkScan None None None) c = Returns s c1 /\
        ruleStart s = Some w /\ ruleEnd s = Some re)
  /\ (forall cssText tokens fuel c w,
      currentToken tokens c = Some w -> is_ w word = true ->
      parseDeclarationOrRuleset cssText tokens fuel c <> Throws ruleStartIsNull)
  /\ (forall cssText tokens fuel c,
      parseRule cssText tokens fuel c <> Throws ruleStartIsNull)
  /\ (forall cssText, parse cssText <> Throws ruleStartIsNull).
Proof.
  assert (R : ~ reachable ruleStartIsNull) by (intros [E|E]; discriminate E).
  repeat apply conj.
  - intros tokens fuel c w s c1 Ec Ew Es.
    destruct (scan_word _ _ _ _ _ _ Ec Ew Es) as (Hrs & Hre & _). auto.
  - intros tokens fuel c w Ec Ew Hfuel.
    destruct (scan_returns tokens fuel (mkScan None None None) c Hfuel)
      as (s & c1 & Es).
    destruct (scan_word _ _ _ _ _ _ Ec Ew Es) as (Hrs & [re Hre] & _).
    exists s, c1, re. auto.
  - intros cssText tokens fuel c w Ec Ew E.
    destruct (faults cssText tokens fuel) as (_ & _ & _ & _ & _ & Fd).
    specialize (Fd c w Ec Ew). rewrite E in Fd. exact (R Fd).
  - intros cssText tokens fuel c E.
    destruct (faults cssText tokens fuel) as (Fr & _).
    specialize (Fr c). rewrite E in Fr. exact (R Fr).
  - intros cssText E. exact (R (parse_faults _ _ E)).
Qed.

Lemma ruleStart_is_never_null_witness :
  let tokens := tokenize ".a{}" in
  let w := mkToken word 0 2 0 in
  (exists s c1 re, scan tokens 6 (mkScan None None None) 0 = Returns s c1
                   /\ ruleStart s = Some w /\ ruleEnd s = Some re)
  /\ parseDeclarationOrRuleset ".a{}" tokens 7 0 <> Throws ruleStartIsNull.
Proof.
  pose (tokens := tokenize ".a{}"). pose (w := mkToken word 0 2 0).
  assert (Ec : currentToken tokens 0 = Some w) by reflexivity.
  assert (Ew : is_ w word = true) by reflexivity.
  split.
  - apply (proj1 (proj2 ruleStart_is_never_null) tokens 6 0 w Ec Ew).
    vm_compute. lia.
  - exact (proj1 (proj2 (proj2 ruleStart_is_never_null)) ".a{}"%string tokens 7 0 w
             Ec Ew).
Defined.

(** ** Termination *)

(** C9.  parse terminates on every text: a budget linear in the number of
    tokens is never used up, whatever the token sequence.  A call of
    parseRule that returns with a token current has consumed at least one
    token; parseUnknown with a token current always returns a Discarded node
    and has consumed at least one token; and the loop of parseRules makes no
    more iterations than there are tokens left. *)
Theorem parse_terminates :
  (forall cssText, parse cssText <> OutOfFuel)
  /\ (forall cssText tokens c k,
      parseRules cssText tokens (k + budget (length tokens - c)) c <> OutOfFuel)
  /\ (forall cssText tokens fuel c,
      after (parseRule cssText tokens fuel c)
            (fun c' => currentToken tokens c <> None -> c < c'))
  /\ (forall cssText tokens fuel c t,
      currentToken tokens c = Some t -> length tokens - c <= fuel ->
      exists text r c',
        parseUnknown cssText tokens fuel c = Returns (Some (Discarded text r)) c'
        /\ c < c')
  /\ (forall cssText tokens fuel c,
      parseRules_iterations cssText tokens fuel c <= length tokens - c).
Proof.
  repeat apply conj.
  - intros cssText. unfold parse, parseStylesheet, parseRules.
    pose proof (parseRules_loop_terminates cssText (tokenize cssText)
                  (budget (length (tokenize cssText))) [] 0) as T.
    destruct (parseRules_loop _ _ _ _ _); try discriminate.
    intros _. apply T; [|reflexivity]. unfold budget. lia.
  - intros cssText tokens c k. unfold parseRules.
    apply parseRules_loop_terminates. unfold budget. lia.
  - intros cssText tokens fuel c.
    destruct (progress cssText tokens fuel) as (Pr & _).
    generalize (Pr c). apply after_impl. tauto.
  - intros cssText tokens fuel c t Ec Hfuel.
    pose proof (tokenAt_Some_lt _ _ _ Ec) as Hlt.
    unfold parseUnknown. rewrite (advance_Some _ _ _ Ec).
    destruct (parseUnknown_loop_returns tokens fuel None (S c)) as (e & c' & El);
      [lia|].
    rewrite El. apply parseUnknown_loop_advances in El.
    eexists. eexists. exists c'. split; [reflexivity|lia].
  - intros cssText tokens fuel c. apply parseRules_iterations_bound.
Qed.

Lemma parse_terminates_witness :
  exists text r c',
    parseUnknown "};" (tokenize "};") 2 0 = Returns (Some (Discarded text r)) c'
    /\ 0 < c'.
Proof.
  refine (proj1 (proj2 (proj2 (proj2 parse_terminates))) "};"%string
            (tokenize "};") 2 0 (mkToken closeBrace 0 1 0) eq_refl _).
  vm_compute. lia.
Defined.

(** ** The colon that the scan records *)

(** C3, as amended.  The colon that the scan of parseDeclarationOrRuleset
    records is the last colon token among the top-level tokens of the scanned
    span (every colon token met outside a skipped group overwrites the one
    recorded before), and it is there that name and value are split: the text
    [a:b:c;] yields the Declaration named [a:b] with the value [c]. *)
Theorem scan_records_last_colon :
  (forall tokens fuel c,
      length tokens - c + 2 <= fuel ->
      exists s c1,
        scan tokens fuel (mkScan None None None) c = Returns s c1 /\
        colon' s = lastColon (spanTokens false (tokensFrom tokens c)))
  /\ parse "a:b:c;" =
     Returns (mkStylesheet
                [Declaration "a:b" (Some (Expression "c" (Range.mk 4 5)))
                             (Range.mk 0 3) (Range.mk 0 5)]
                (Range.mk 0 6)) 6.
Proof.
  split; [|vm_compute; reflexivity].
  intros tokens fuel c Hfuel.
  destruct (scan_returns tokens fuel (mkScan None None None) c Hfuel)
    as (s & c1 & Es).
  exists s, c1. split; [exact Es|].
  apply scan_span in Es. cbv zeta in Es. destruct Es as (_ & _ & H & _).
  exact H.
Qed.

Lemma scan_records_last_colon_witness :
  exists s c1,
    scan (tokenize "a:b:c;") 8 (mkScan None None None) 0 = Returns s c1 /\
    colon' s = Some (mkToken colon 3 4 3).
Proof.
  destruct (proj1 scan_records_last_colon (tokenize "a:b:c;") 8 0)
    as (s & c1 & Es & Hc).
  - vm_compute. lia.
  - exists s, c1. split; [exact Es|]. rewrite Hc. reflexivity.
Defined.

(** C3, as the claim has it, fails: in [a:b:c;] two colon tokens are met
    outside parentheses before the semicolon, and the one recorded is not the
    first of them. *)
Lemma scan_records_not_the_first_colon :
  let tokens := tokenize "a:b:c;" in
  let span := spanTokens false (tokensFrom tokens 0) in
  exists s c1,
    scan tokens 8 (mkScan None None None) 0 = Returns s c1 /\
    currentToken tokens c1 = Some (mkToken semicolon 5 6 5) /\
    1 < length (filter (fun t => is_ t colon) span) /\
    firstColon span = Some (mkToken colon 1 2 1) /\
    colon' s <> firstColon span.
Proof.
  eexists. eexists. split; [vm_compute; reflexivity|].
  split; [reflexivity|]. split; [vm_compute; lia|]. split; [reflexivity|].
  vm_compute. discriminate.
Qed.

(** ** Recovery *)

(** C2, as amended.  The text [} weird ; .a{}] yields exactly three top-level
    nodes: the Discarded node of the stray [}] alone (the token after it is
    whitespace, so the run of boundary tokens that follows it is empty), the
    Declaration named [weird], without value, which takes the semicolon, and
    the Ruleset of [.a{}]. *)
Theorem recovery_example :
  parse "} weird ; .a{}" =
  Returns (mkStylesheet
             [Discarded "}" (Range.mk 0 1);
              Declaration "weird" None (Range.mk 2 7) (Range.mk 2 9);
              Ruleset ".a" (mkRulelist [] (Range.mk 12 14))
                      (Range.mk 10 12) (Range.mk 10 14)]
             (Range.mk 0 14)) 9.
Proof. vm_compute. reflexivity. Qed.

(** C2, as the claim has it, fails: the rules of [} weird ; .a{}] are not a
    Discarded node followed by a Ruleset node and nothing else. *)
Lemma recovery_example_is_not_two_nodes :
  ~ exists text r selector rulelist selectorRange r' whole c,
      parse "} weird ; .a{}" =
      Returns (mkStylesheet
                 [Discarded text r; Ruleset selector rulelist selectorRange r']
                 whole) c.
Proof.
  intros (text & r & selector & rulelist & selectorRange & r' & whole & c & H).
  vm_compute in H. discriminate H.
Qed.

(** ** The mixin declaration at the end of the input *)

(** C1.  parse is not total: on the text [a:{}] the mixin branch of
    parseDeclarationOrRuleset reads [tokenizer.currentToken.is] after the
    rulelist has consumed the last token, and the parse ends in a TypeError
    instead of a Stylesheet. *)
Theorem parse_throws_on_mixin_at_end_of_input :
  parse "a:{}" = Throws currentTokenIsNull.
Proof. vm_compute. reflexivity. Qed.

(** C5.  In [--foo: { color: red; }] the scan stops at the [openBrace] with
    the recorded colon as the last token of the span, and yet no Declaration
    is emitted: the rulelist ends the input, and the test for a trailing
    semicolon reads the [null] current token.  No budget changes that. *)
Theorem mixin_at_end_of_input_throws :
  let cssText := "--foo: { color: red; }"%string in
  let tokens := tokenize cssText in
  (exists s c1,
      scan tokens 5 (mkScan None None None) 0 = Returns s c1 /\
      currentToken tokens c1 = Some (mkToken openBrace 7 8 3) /\
      colon' s = Some (mkToken colon 5 6 1) /\ ruleEnd s = colon' s)
  /\ parseDeclarationOrRuleset cssText tokens (budget (length tokens)) 0
     = Throws currentTokenIsNull
  /\ forall fuel d c,
      parseDeclarationOrRuleset cssText tokens fuel 0 <> Returns d c.
Proof.
  split; [|split].
  - eexists. eexists. split; [vm_compute; reflexivity|]. repeat split.
  - vm_compute. reflexivity.
  - intros fuel d c.
    do 12 (destruct fuel as [|fuel]; [vm_compute; discriminate|]).
    vm_compute. discriminate.
Qed.

(** C7.  parseRulelist, entered at the [openBrace] of [.a{--m:{}], returns no
    Rulelist, whatever the budget: the mixin declaration inside the block
    ends the input and throws, and the error leaves parseRulelist. *)
Theorem parseRulelist_throws_on_unterminated_mixin :
  let cssText := ".a{--m:{}"%string in
  let tokens := tokenize cssText in
  currentToken tokens 1 = Some (mkToken openBrace 2 3 1)
  /\ parseRulelist cssText tokens (budget (length tokens)) 1
     = Throws currentTokenIsNull
  /\ forall fuel rl c, parseRulelist cssText tokens fuel 1 <> Returns rl c.
Proof.
  split; [reflexivity|]. split; [vm_compute; reflexivity|].
  intros fuel rl c.
  do 12 (destruct fuel as [|fuel]; [vm_compute; discriminate|]).
  vm_compute. discriminate.
Qed.

(** ** The name of an at-rule *)

(** C8.  In [@ x;] no word token follows the [@], and the at-rule that is
    returned is named by the text of the whitespace token that does: the
    name is one space. *)
Theorem at_rule_named_by_whitespace :
  let tokens := tokenize "@ x;" in
  currentToken tokens 1 = Some (mkToken whitespace 1 2 1)
  /\ parse "@ x;" =
     Returns (mkStylesheet
                [AtRule " " "x" None (Range.mk 1 2) (Some (Range.mk 2 3))
                        (Range.mk 0 4)]
                (Range.mk 0 4)) 4.
Proof. split; [reflexivity|vm_compute; reflexivity]. Qed.

(** ** The examples of the specification that hold *)

Example mixin_example :
  parse "--foo: { color: red; };" =
  Returns (mkStylesheet
             [Declaration "--foo"
                (Some (Mixin (mkRulelist
                   [Declaration "color" (Some (Expression "red" (Range.mk 16 19)))
                                (Range.mk 9 14) (Range.mk 9 20)]
                   (Range.mk 7 22))))
                (Range.mk 0 5) (Range.mk 0 6)]
             (Range.mk 0 23)) 13.
Proof. vm_compute. reflexivity. Qed.

Example unterminated_block_example :
  parse ".a { color: red;" =
  Returns (mkStylesheet
             [Ruleset ".a"
                (mkRulelist
                   [Declaration "color" (Some (Expression "red" (Range.mk 12 15)))
                                (Range.mk 5 10) (Range.mk 5 15)]
                   (Range.mk 3 16))
                (Range.mk 0 2) (Range.mk 0 16)]
             (Range.mk 0 16)) 9.
Proof. vm_compute. reflexivity. Qed.

Example at_statement_example :
  parse import_statement =
  Returns (mkStylesheet
             [AtRule "import"
                     (String (ascii_of_nat 34) "x.css" ++ String (ascii_of_nat 34) EmptyString)
                     None (Range.mk 1 7) (Some (Range.mk 8 15)) (Range.mk 0 16)]
             (Range.mk 0 16)) 5.
Proof. vm_compute. reflexivity. Qed.

Example at_sign_at_end_of_input : parse "@" = Throws startTokenIsNull.
Proof. vm_compute. reflexivity. Qed.

(** ** Further facts on the parser *)

Lemma is_at_word_free t : is_ t at_ = true -> is_ t whitespace = false.
Proof. destruct t as [[] s e i]; simpl; intros H; try discriminate H; reflexivity. Qed.


Section MoreParserFacts.

Variable cssText : string.
Variable tokens : list Token.

Local Abbreviation currentToken := (currentToken tokens).
Local Abbreviation tokenAt := (tokenAt tokens).
Local Abbreviation advance := (advance tokens).
Local Abbreviation previous := (previous tokens).
Local Abbreviation parseUnknown_loop := (parseUnknown_loop tokens).
Local Abbreviation words_loop := (words_loop tokens).
Local Abbreviation skipToCloseParenthesis := (skipToCloseParenthesis tokens).
Local Abbreviation scan := (scan tokens).
Local Abbreviation parseRule := (parseRule cssText tokens).
Local Abbreviation parseAtRule := (parseAtRule cssText tokens).
Local Abbreviation parseAtRule_loop := (parseAtRule_loop cssText tokens).
Local Abbreviation parseRulelist := (parseRulelist cssText tokens).
Local Abbreviation parseRulelist_loop := (parseRulelist_loop cssText tokens).
Local Abbreviation parseDeclarationOrRuleset :=
  (parseDeclarationOrRuleset cssText tokens).
Local Abbreviation parseUnknown := (parseUnknown cssText tokens).
Local Abbreviation parseComment := (parseComment cssText tokens).
Local Abbreviation declaration := (declaration cssText tokens).
Local Abbreviation atRule_result := (atRule_result cssText tokens).
Local Abbreviation parseRules_loop := (parseRules_loop cssText tokens).

(** *** The cursor stays within the token sequence *)

Lemma advance_within c : c <= length tokens -> snd (advance c) <= length tokens.
Proof.
  intros H. unfold advance. destruct (currentToken c) as [t|] eqn:Ec; simpl; auto.
  apply tokenAt_Some_lt in Ec. lia.
Qed.

Lemma parseUnknown_loop_within fuel : forall e c e' c',
  parseUnknown_loop fuel e c = Returns e' c' ->
  c <= length tokens -> c' <= length tokens.
Proof.
  induction fuel as [|fuel IH]; simpl; intros e c e' c' H Hc; [discriminate|].
  destruct (currentToken c) as [t|] eqn:Ec; [|inversion H; lia].
  destruct (is_ t boundary); [|inversion H; lia].
  rewrite (advance_Some _ _ _ Ec) in H. apply IH in H; auto.
  apply tokenAt_Some_lt in Ec. lia.
Qed.

Lemma words_loop_within fuel : forall e c e' c',
  words_loop fuel e c = Returns e' c' ->
  c <= length tokens -> c' <= length tokens.
Proof.
  induction fuel as [|fuel IH]; simpl; intros e c e' c' H Hc; [discriminate|].
  destruct (currentToken c) as [t|] eqn:Ec; [|inversion H; lia].
  destruct (is_ t word); [|inversion H; lia].
  rewrite (advance_Some _ _ _ Ec) in H. apply IH in H; auto.
  apply tokenAt_Some_lt in Ec. lia.
Qed.

Lemma skipToCloseParenthesis_within fuel : forall c u c',
  skipToCloseParenthesis fuel c = Returns u c' ->
  c <= length tokens -> c' <= length tokens.
Proof.
  induction fuel as [|fuel IH]; simpl; intros c u c' H Hc; [discriminate|].
  destruct (currentToken c) as [t|] eqn:Ec; [|inversion H; lia].
  destruct (is_ t closeParenthesis); simpl in H; [inversion H; lia|].
  apply IH in H; auto. apply advance_within. exact Hc.
Qed.

Lemma scan_within fuel : forall s c s' c',
  scan fuel s c = Returns s' c' ->
  c <= length tokens -> c' <= length tokens.
Proof.
  induction fuel as [|fuel IH]; simpl; intros s c s' c' H Hc; [discriminate|].
  destruct (currentToken c) as [t|] eqn:Ec; [|inversion H; lia].
  pose proof (tokenAt_Some_lt _ _ _ Ec) as Hlt.
  destruct (is_ t whitespace).
  { apply IH in H; auto. apply advance_within. exact Hc. }
  destruct (is_ t openParenthesis).
  { destruct (skipToCloseParenthesis fuel c) as [u c1| |] eqn:Es; try discriminate.
    apply skipToCloseParenthesis_within in Es; auto. apply IH in H; auto. }
  destruct (is_ t openBrace || is_ t propertyBoundary); [inversion H; lia|].
  rewrite (advance_Some _ _ _ Ec) in H.
  destruct (ruleStart s); apply IH in H; auto.
Qed.

Lemma bounded fuel :
  (forall c, after (parseRule fuel c)
                   (fun c' => c <= length tokens -> c' <= length tokens))
  /\ (forall c, after (parseAtRule fuel c)
                   (fun c' => c <= length tokens -> c' <= length tokens))
  /\ (forall s c, after (parseAtRule_loop fuel s c)
                   (fun c' => c <= length tokens -> c' <= length tokens))
  /\ (forall c, after (parseRulelist fuel c)
                   (fun c' => c <= length tokens -> c' <= length tokens))
  /\ (forall rules c, after (parseRulelist_loop fuel rules c)
                   (fun c' => c <= length tokens -> c' <= length tokens))
  /\ (forall c, after (parseDeclarationOrRuleset fuel c)
                   (fun c' => c <= length tokens -> c' <= length tokens)).
Proof.
  induction fuel as [|fuel (IHr & IHa & IHal & IHl & IHll & IHd)];
    [repeat split; intros; exact I|].
  repeat apply conj.
  - intros c. rewrite parseRule_S.
    destruct (currentToken c) as [t|] eqn:Ec; [|simpl; auto].
    pose proof (tokenAt_Some_lt _ _ _ Ec) as Hlt.
    assert (Hu : after (parseUnknown fuel c)
                       (fun c' => c <= length tokens -> c' <= length tokens)).
    { unfold parseUnknown. rewrite (advance_Some _ _ _ Ec).
      destruct (parseUnknown_loop fuel None (S c)) as [e c'| |] eqn:El; simpl; auto.
      intros _. eapply parseUnknown_loop_within; eauto. }
    destruct (is_ t whitespace).
    { rewrite (advance_Some _ _ _ Ec). simpl. lia. }
    destruct (is_ t comment).
    { unfold parseComment. rewrite (advance_Some _ _ _ Ec). simpl. lia. }
    destruct (is_ t word); [apply IHd|].
    destruct (is_ t propertyBoundary); [exact Hu|].
    destruct (is_ t at_); [apply IHa|exact Hu].
  - intros c. rewrite parseAtRule_S.
    destruct (currentToken c) as [t|] eqn:Ec; [|simpl; auto].
    generalize (IHal (mkAtState None None None None None) c).
    destruct (parseAtRule_loop fuel _ c) as [s c1| |]; simpl; auto.
    intros H. generalize (atRule_result_progress cssText tokens (start t) s c1).
    apply after_impl. intros c' ->. exact H.
  - intros s c. rewrite parseAtRule_loop_S.
    destruct (currentToken c) as [t|] eqn:Ec; [|simpl; auto].
    pose proof (tokenAt_Some_lt _ _ _ Ec) as Hlt.
    rewrite (advance_Some _ _ _ Ec). cbv zeta. simpl snd.
    destruct (is_ t whitespace).
    { generalize (IHal s (S c)). apply after_impl. intros c' H _. apply H. lia. }
    destruct (negb (truthy (name s)) && is_ t at_).
    { destruct (words_loop fuel None (S c)) as [e c2| |] eqn:Ewl; simpl; auto.
      apply words_loop_within in Ewl; [|lia].
      destruct (currentToken (S c)) as [st|]; simpl; auto.
      match goal with |- after (parseAtRule_loop fuel ?s' c2) _ =>
        generalize (IHal s' c2) end.
      apply after_impl. intros c' H _. apply H. exact Ewl. }
    destruct (is_ t openBrace).
    { generalize (IHl c). destruct (parseRulelist fuel c); simpl; auto. }
    destruct (is_ t propertyBoundary); [simpl; lia|].
    destruct (parametersStart s);
      match goal with |- after (parseAtRule_loop fuel ?s' (S c)) _ =>
        generalize (IHal s' (S c)) end;
      apply after_impl; intros c' H _; apply H; lia.
  - intros c. rewrite parseRulelist_S.
    destruct (currentToken c) as [t|] eqn:Ec; [|exact I].
    pose proof (tokenAt_Some_lt _ _ _ Ec) as Hlt.
    rewrite (advance_Some _ _ _ Ec). simpl snd.
    generalize (IHll [] (S c)).
    destruct (parseRulelist_loop fuel [] (S c)) as [[rules e] c2| |]; simpl; auto.
  - intros rules c. rewrite parseRulelist_loop_S.
    destruct (currentToken c) as [t|] eqn:Ec; [|simpl; auto].
    pose proof (tokenAt_Some_lt _ _ _ Ec) as Hlt.
    destruct (is_ t closeBrace).
    { rewrite (advance_Some _ _ _ Ec). simpl. lia. }
    generalize (IHr c). destruct (parseRule fuel c) as [r c1| |]; simpl; auto.
    intros H. generalize (IHll (push rules r) c1).
    apply after_impl. intros c' H' Hc. auto.
  - intros c. rewrite parseDeclarationOrRuleset_S.
    destruct (scan fuel (mkScan None None None) c) as [s c1| |] eqn:Es; simpl; auto.
    pose proof (scan_within _ _ _ _ _ Es) as Hs.
    destruct (currentToken c1) as [t|] eqn:Ec1; [|simpl; auto].
    pose proof (tokenAt_Some_lt _ _ _ Ec1) as Hlt.
    destruct (is_ t propertyBoundary).
    { unfold declaration. destruct (ruleStart s); simpl; auto.
      destruct (is_ t semicolon); [rewrite (advance_Some _ _ _ Ec1); simpl|]; lia. }
    destruct (match colon' s, ruleEnd s with
              | Some co, Some re => same co re
              | _, _ => false
              end).
    + generalize (IHl c1). destruct (parseRulelist fuel c1) as [rl c2| |]; simpl; auto.
      intros H. destruct (currentToken c2) as [t1|] eqn:Ec2; simpl; auto.
      pose proof (tokenAt_Some_lt _ _ _ Ec2) as Hlt2.
      destruct (ruleStart s); simpl; auto. destruct (ruleEnd s); simpl; auto.
      destruct (is_ t1 semicolon); [rewrite (advance_Some _ _ _ Ec2); simpl|]; lia.
    + destruct (ruleStart s); simpl; auto.
      generalize (IHl c1). destruct (parseRulelist fuel c1) as [rl c2| |]; simpl; auto.
Qed.

(** *** The loop of parseRules *)

Lemma push_length rules r : length (push rules r) <= S (length rules).
Proof. destruct r; simpl; [rewrite length_app; simpl|]; lia. Qed.

Lemma parseRules_loop_end fuel : forall rules c rs c',
  parseRules_loop fuel rules c = Returns rs c' ->
  currentToken c' = None
  /\ (c <= length tokens -> c' <= length tokens)
  /\ length rs + c <= length rules + c'.
Proof.
  induction fuel as [|fuel IH]; simpl; intros rules c rs c' H; [discriminate|].
  destruct (currentToken c) as [t|] eqn:Ec.
  2:{ inversion H; subst. repeat split; auto. }
  destruct (progress cssText tokens fuel) as (Pr & _).
  destruct (bounded fuel) as (Br & _).
  specialize (Pr c). specialize (Br c).
  destruct (parseRule fuel c) as [r c1| |]; try discriminate.
  simpl in Pr, Br. destruct Pr as [_ Pr].
  assert (c < c1) by (apply Pr; congruence).
  apply IH in H. destruct H as (H1 & H2 & H3).
  pose proof (push_length rules r).
  repeat split; auto. lia.
Qed.

(** *** The run of boundary tokens that parseUnknown consumes *)

Lemma parseUnknown_loop_run fuel : forall e c e' c',
  parseUnknown_loop fuel e c = Returns e' c' ->
  c <= c'
  /\ (forall i, c <= i < c' ->
                exists t, tokenAt i = Some t /\ is_ t boundary = true)
  /\ (forall t, currentToken c' = Some t -> is_ t boundary = false)
  /\ (c = c' -> e' = e)
  /\ (c < c' -> e' = tokenAt (c' - 1)).
Proof.
  induction fuel as [|fuel IH]; simpl; intros e c e' c' H; [discriminate|].
  destruct (currentToken c) as [t|] eqn:Ec.
  2:{ inversion H; subst. repeat split; auto; try lia.
      intros t Ht. rewrite Ec in Ht. discriminate. }
  destruct (is_ t boundary) eqn:Eb.
  2:{ inversion H; subst. repeat split; auto; try lia.
      intros t' Ht. rewrite Ec in Ht. inversion Ht; subst. exact Eb. }
  rewrite (advance_Some _ _ _ Ec) in H. apply IH in H.
  destruct H as (H1 & H2 & H3 & H4 & H5).
  repeat split; auto; try lia.
  - intros i Hi. destruct (Nat.eq_dec i c) as [->|Hne]; [eauto|].
    apply H2. lia.
  - intros _. destruct (Nat.eq_dec (S c) c') as [E|Hne].
    + rewrite (H4 E). subst c'. simpl. rewrite Nat.sub_0_r. symmetry. exact Ec.
    + apply H5. lia.
Qed.

(** *** How the loop of parseRulelist ends *)

Lemma parseRulelist_loop_end fuel : forall rules c rs e c',
  parseRulelist_loop fuel rules c = Returns (rs, e) c' ->
  match e with
  | Some t => is_ t closeBrace = true /\ c < c' /\ tokenAt (c' - 1) = Some t
  | None => currentToken c' = None
  end.
Proof.
  induction fuel as [|fuel IH]; intros rules c rs e c' H; [discriminate|].
  rewrite parseRulelist_loop_S in H.
  destruct (currentToken c) as [t|] eqn:Ec.
  2:{ inversion H; subst. exact Ec. }
  destruct (is_ t closeBrace) eqn:Eb.
  { rewrite (advance_Some _ _ _ Ec) in H. inversion H; subst. simpl.
    rewrite Nat.sub_0_r. repeat split; auto. }
  destruct (progress cssText tokens fuel) as (Pr & _). specialize (Pr c).
  destruct (parseRule fuel c) as [r c1| |]; try discriminate.
  simpl in Pr. destruct Pr as [Pr _].
  apply IH in H. destruct e as [t'|]; auto.
  destruct H as (H1 & H2 & H3). repeat split; auto. lia.
Qed.

(** *** The variables of parseAtRule when its loop is left *)

Ltac solve_at En :=
  let t' := fresh "t" in
  let Ht := fresh "Ht" in
  let Ha := fresh "Ha" in
  let Hn := fresh "Hn" in
  intros t' Ht Ha Hn; exfalso; inversion Ht; subst;
  rewrite Hn, Ha in En; discriminate En.

Lemma parseAtRule_loop_state fuel : forall s c s' c',
  parseAtRule_loop fuel s c = Returns s' c' ->
  (name s <> None -> name s' <> None)
  /\ (nameRange s <> None -> nameRange s' <> None)
  /\ (forall t, currentToken c = Some t -> is_ t at_ = true ->
                 truthy (name s) = false ->
                 name s' <> None /\ nameRange s' <> None)
  /\ (rulelist s' = None ->
      currentToken c' = None \/
      exists b, 0 < c' /\ tokenAt (c' - 1) = Some b
                /\ is_ b propertyBoundary = true).
Proof.
  induction fuel as [|fuel IH]; intros s c s' c' H; [discriminate|].
  rewrite parseAtRule_loop_S in H.
  destruct (currentToken c) as [t|] eqn:Ec.
  2:{ inversion H; subst. split; [|split; [|split]]; auto.
      intros t Ht. discriminate Ht. }
  rewrite (advance_Some _ _ _ Ec) in H. cbv zeta in H. simpl snd in H.
  destruct (is_ t whitespace) eqn:Ew.
  { apply IH in H. destruct H as (H1 & H2 & _ & H4).
    split; [|split; [|split]]; auto.
    intros t' Ht' Ha. inversion Ht'; subst.
    apply is_at_word_free in Ha. congruence. }
  destruct (negb (truthy (name s)) && is_ t at_) eqn:En.
  { destruct (words_loop fuel None (S c)) as [e c2| |]; try discriminate.
    destruct (currentToken (S c)) as [st|]; try discriminate.
    apply IH in H. simpl in H. destruct H as (H1 & H2 & _ & H4).
    assert (N1 : name s' <> None) by (apply H1; discriminate).
    assert (N2 : nameRange s' <> None) by (apply H2; discriminate).
    split; [|split; [|split]]; auto. }
  destruct (is_ t openBrace) eqn:Eo.
  { destruct (parseRulelist fuel c) as [rl c1| |]; try discriminate.
    inversion H; subst. simpl.
    split; [|split; [|split]]; auto; try (solve_at En); discriminate. }
  destruct (is_ t propertyBoundary) eqn:Eb.
  { inversion H; subst. split; [|split; [|split]]; auto; try (solve_at En).
    intros _. right. exists t. simpl. rewrite Nat.sub_0_r.
    split; [lia|]. split; auto. }
  destruct (parametersStart s); apply IH in H; simpl in H;
    destruct H as (H1 & H2 & _ & H4);
    (split; [|split; [|split]]; auto; try (solve_at En)).
Qed.

(** *** Between [ruleEnd] and the token at which the scan stops *)

Lemma skipToCloseParenthesis_lands fuel : forall c u c',
  skipToCloseParenthesis fuel c = Returns u c' ->
  (forall i t, c <= i < c' -> tokenAt i = Some t -> is_ t closeParenthesis = false)
  /\ match currentToken c' with
     | Some t => is_ t closeParenthesis = true
     | None => True
     end.
Proof.
  induction fuel as [|fuel IH]; simpl; intros c u c' H; [discriminate|].
  destruct (currentToken c) as [t|] eqn:Ec.
  2:{ inversion H; subst. rewrite Ec. split; auto. intros; lia. }
  destruct (is_ t closeParenthesis) eqn:Ep; simpl in H.
  { inversion H; subst. rewrite Ec. split; auto. intros; lia. }
  rewrite (advance_Some _ _ _ Ec) in H. simpl in H. apply IH in H.
  destruct H as [H1 H2]. split; auto.
  intros i t' Hi Ht'. destruct (Nat.eq_dec i c) as [->|Hne].
  - unfold currentToken in Ec. rewrite Ec in Ht'. inversion Ht'; subst. exact Ep.
  - apply (H1 i); auto. lia.
Qed.

Lemma scan_gap fuel : forall s c s' c',
  scan fuel s c = Returns s' c' ->
  ((forall re i tk, ruleEnd s = Some re -> index re < i < c ->
                    tokenAt i = Some tk -> is_ tk whitespace = true)
   \/ match currentToken c with
      | Some t => is_ t closeParenthesis = true
      | None => True
      end) ->
  forall stop re i tk,
    currentToken c' = Some stop -> ruleEnd s' = Some re ->
    index re < i < c' -> tokenAt i = Some tk -> is_ tk whitespace = true.
Proof.
  induction fuel as [|fuel IH]; simpl; intros s c s' c' H Inv; [discriminate|].
  destruct (currentToken c) as [t|] eqn:Ec.
  2:{ inversion H; subst. intros stop re i tk Hs. congruence. }
  pose proof (tokenAt_index _ _ _ Ec) as Hi.
  destruct (is_ t whitespace) eqn:Ew.
  { rewrite (advance_Some _ _ _ Ec) in H. simpl in H.
    apply (IH _ _ _ _ H). left. intros re i tk Hre Hlt Htk.
    destruct Inv as [Inv|Inv].
    - destruct (Nat.eq_dec i c) as [->|Hne].
      + unfold currentToken in Ec. rewrite Ec in Htk. inversion Htk; subst. exact Ew.
      + apply (Inv re i); auto. lia.
    - destruct t as [[] ? ? ?]; discriminate. }
  destruct (is_ t openParenthesis) eqn:Eo.
  { destruct (skipToCloseParenthesis fuel c) as [u c1| |] eqn:Es; try discriminate.
    apply skipToCloseParenthesis_lands in Es. destruct Es as [_ Es].
    apply (IH _ _ _ _ H). right. exact Es. }
  destruct (is_ t openBrace || is_ t propertyBoundary) eqn:Eb.
  { inversion H; subst. intros stop re i tk _ Hre Hlt Htk.
    destruct Inv as [Inv|Inv]; [eapply Inv; eauto|].
    destruct t as [[] ? ? ?]; discriminate. }
  rewrite (advance_Some _ _ _ Ec) in H.
  destruct (ruleStart s); apply (IH _ _ _ _ H); left; simpl;
    intros re i tk Hre Hlt; inversion Hre; subst; lia.
Qed.

(** *** Token sequences on which nothing is thrown *)

Section Total.

Hypothesis no_mixin : mixinFree tokens.
Hypothesis at_not_last : atNotLast tokens.

Lemma no_faults fuel :
  (forall c, failing (parseRule fuel c) (fun _ => False))
  /\ (forall c, failing (parseAtRule fuel c) (fun _ => False))
  /\ (forall s c, failing (parseAtRule_loop fuel s c) (fun _ => False))
  /\ (forall c, currentToken c <> None ->
                failing (parseRulelist fuel c) (fun _ => False))
  /\ (forall rules c, failing (parseRulelist_loop fuel rules c) (fun _ => False))
  /\ (forall c t, currentToken c = Some t -> is_ t word = true ->
                  failing (parseDeclarationOrRuleset fuel c) (fun _ => False)).
Proof.
  induction fuel as [|fuel (IHr & IHa & IHal & IHl & IHll & IHd)];
    [repeat split; intros; exact I|].
  destruct (progress cssText tokens fuel) as (Pr & Pa & Pal & Pl & Pll & Pd).
  repeat apply conj.
  - (* parseRule *)
    intros c. rewrite parseRule_S.
    destruct (currentToken c) as [t|] eqn:Ec; [|exact I].
    destruct (is_ t whitespace); [exact I|].
    destruct (is_ t comment).
    { pose proof (parseComment_no_throw cssText tokens c) as H.
      destruct (parseComment c); simpl; auto. eapply H; reflexivity. }
    destruct (is_ t word) eqn:Ew; [eapply IHd; eauto|].
    assert (Hu : failing (parseUnknown fuel c) (fun _ => False)).
    { pose proof (parseUnknown_no_throw cssText tokens fuel c) as H.
      destruct (parseUnknown fuel c); simpl; auto. eapply H; reflexivity. }
    destruct (is_ t propertyBoundary); [exact Hu|].
    destruct (is_ t at_); [apply IHa | exact Hu].
  - (* parseAtRule *)
    intros c. rewrite parseAtRule_S.
    destruct (currentToken c) as [t|] eqn:Ec; [|exact I].
    generalize (IHal (mkAtState None None None None None) c).
    generalize (Pal (mkAtState None None None None None) c).
    destruct (parseAtRule_loop fuel _ c) as [s c1| |]; simpl; auto.
    intros [_ Hlt] _.
    assert (0 < c1) by (assert (c < c1) by (apply Hlt; congruence); lia).
    pose proof (atRule_result_no_throw cssText tokens (start t) s c1) as H1.
    destruct (atRule_result (start t) s c1); simpl; auto.
    eapply H1; eauto.
  - (* parseAtRule_loop *)
    intros s c. rewrite parseAtRule_loop_S.
    destruct (currentToken c) as [t|] eqn:Ec; [|exact I].
    pose proof (tokenAt_Some_lt _ _ _ Ec) as Hlt.
    destruct (is_ t whitespace); [apply IHal|].
    destruct (negb (truthy (name s)) && is_ t at_) eqn:En.
    { rewrite (advance_Some _ _ _ Ec). cbv zeta. simpl snd.
      pose proof (words_loop_no_throw tokens fuel None (S c)) as H.
      destruct (words_loop fuel None (S c)) as [e c2| |]; simpl; auto.
      - destruct (currentToken (S c)) as [st|] eqn:Es; [apply IHal|].
        simpl. apply tokenAt_None_ge in Es.
        apply andb_true_iff in En. destruct En as [_ En].
        assert (E : c = length tokens - 1) by lia.
        unfold currentToken in Ec. rewrite E in Ec.
        rewrite (at_not_last t Ec) in En. discriminate En.
      - eapply H; reflexivity. }
    destruct (is_ t openBrace).
    { generalize (IHl c). rewrite Ec.
      destruct (parseRulelist fuel c); simpl; auto. intros H. apply H. discriminate. }
    destruct (is_ t propertyBoundary); [exact I|].
    destruct (advance c) as [x c1]. destruct (parametersStart s); apply IHal.
  - (* parseRulelist *)
    intros c Hc. rewrite parseRulelist_S.
    destruct (currentToken c) as [t|] eqn:Ec; [|congruence].
    generalize (IHll [] (snd (advance c))).
    destruct (parseRulelist_loop fuel [] (snd (advance c))) as [[rules e] c2| |];
      simpl; auto.
  - (* parseRulelist_loop *)
    intros rules c. rewrite parseRulelist_loop_S.
    destruct (currentToken c) as [t|] eqn:Ec; [|exact I].
    destruct (is_ t closeBrace); [exact I|].
    generalize (IHr c). destruct (parseRule fuel c) as [r c1| |]; simpl; auto.
  - (* parseDeclarationOrRuleset *)
    intros c w Ec Ew. rewrite parseDeclarationOrRuleset_S.
    pose proof (scan_no_throw tokens fuel (mkScan None None None) c) as Hs.
    destruct (scan fuel (mkScan None None None) c) as [s c1| |] eqn:Es;
      [|exfalso; eapply Hs; reflexivity|exact I].
    destruct (scan_word _ _ _ _ _ _ Ec Ew Es) as (Hrs & [re Hre] & _).
    destruct (currentToken c1) as [t|] eqn:Ec1; [|exact I].
    destruct (is_ t propertyBoundary) eqn:Eb.
    { unfold declaration. rewrite Hrs. exact I. }
    rewrite Hrs, Hre.
    assert (Hl : failing (parseRulelist fuel c1) (fun _ => False))
      by (apply IHl; congruence).
    destruct (colon' s) as [co|] eqn:Eco.
    2:{ destruct (parseRulelist fuel c1) as [rl c2| |]; simpl; auto. }
    destruct (same co re) eqn:Esame.
    2:{ destruct (parseRulelist fuel c1) as [rl c2| |]; simpl; auto. }
    exfalso.
    pose proof (scan_refs _ _ _ _ _ _ Es) as [Hco _].
    destruct (Hco co Eco) as [E|(Hi & Hat & Hcol)]; [discriminate E|].
    pose proof (scan_span _ _ _ _ _ _ Es) as Hsp. cbv zeta in Hsp.
    destruct Hsp as (_ & _ & _ & _ & Hstop). rewrite Ec1, Eb in Hstop.
    rewrite orb_false_r in Hstop.
    apply Nat.eqb_eq in Esame.
    assert (Hgap : forall i tk, index co < i < c1 -> tokenAt i = Some tk ->
                                is_ tk whitespace = true).
    { intros i tk Hlt Htk. rewrite Esame in Hlt.
      eapply (scan_gap _ _ _ _ _ Es); eauto.
      left. simpl. intros; discriminate. }
    rewrite (no_mixin (index co) c1 co t Hat Hcol (proj2 Hi) Hgap Ec1) in Hstop.
    discriminate Hstop.
Qed.

End Total.

(** *** Whitespace and comments only *)

Lemma is_whitespace_not_comment t : is_ t whitespace = true -> is_ t comment = false.
Proof. destruct t as [[] ? ? ?]; simpl; intros H; try discriminate H; reflexivity. Qed.

Lemma parseRules_loop_comments fuel : forall rules c,
  (forall i t, c <= i -> tokenAt i = Some t ->
               is_ t whitespace || is_ t comment = true) ->
  length tokens - c < fuel ->
  parseRules_loop fuel rules c =
  Returns (rules ++ commentsOf cssText (tokensFrom tokens c))
          (c + length (tokensFrom tokens c)).
Proof.
  induction fuel as [|fuel IH]; intros rules c Hall Hfuel; [lia|]. simpl.
  destruct (currentToken c) as [t|] eqn:Ec.
  2:{ rewrite (tokensFrom_None _ _ Ec). simpl. rewrite app_nil_r, Nat.add_0_r.
      reflexivity. }
  pose proof (tokenAt_Some_lt _ _ _ Ec) as Hlt.
  rewrite (tokensFrom_Some _ _ _ Ec).
  destruct fuel as [|fuel]; [lia|]. rewrite parseRule_S, Ec.
  assert (Hnext : forall i t', S c <= i -> tokenAt i = Some t' ->
                               is_ t' whitespace || is_ t' comment = true).
  { intros i t' Hi. apply Hall. lia. }
  specialize (Hall c t (le_n c) Ec).
  destruct (is_ t whitespace) eqn:Ew.
  - rewrite (advance_Some _ _ _ Ec). simpl snd.
    rewrite (IH _ _ Hnext) by lia.
    unfold commentsOf. simpl filter. rewrite (is_whitespace_not_comment _ Ew).
    simpl. f_equal. lia.
  - simpl in Hall. rewrite Hall. unfold parseComment.
    rewrite (advance_Some _ _ _ Ec).
    rewrite (IH _ _ Hnext) by lia.
    unfold commentsOf. simpl filter. rewrite Hall. simpl.
    rewrite <- app_assoc. simpl. f_equal. lia.
Qed.

(** *** A group that is never closed *)

Lemma skipToCloseParenthesis_to_end fuel : forall c,
  (forall i t, c <= i -> tokenAt i = Some t -> is_ t closeParenthesis = false) ->
  c <= length tokens -> length tokens - c < fuel ->
  skipToCloseParenthesis fuel c = Returns tt (length tokens).
Proof.
  induction fuel as [|fuel IH]; intros c Hno Hc Hfuel; [lia|]. simpl.
  destruct (currentToken c) as [t|] eqn:Ec.
  2:{ apply tokenAt_None_ge in Ec. f_equal. lia. }
  pose proof (tokenAt_Some_lt _ _ _ Ec) as Hlt.
  rewrite (Hno c t (le_n c) Ec). simpl.
  rewrite (advance_Some _ _ _ Ec). simpl. apply IH; try lia.
  intros i t' Hi. apply Hno. lia.
Qed.

Lemma scan_unclosed fuel : forall s c j p,
  c <= j -> tokenAt j = Some p -> is_ p openParenthesis = true ->
  (forall i t, c <= i < j -> tokenAt i = Some t ->
               is_ t openParenthesis = false /\
               is_ t openBrace || is_ t propertyBoundary = false) ->
  (forall i t, j <= i -> tokenAt i = Some t -> is_ t closeParenthesis = false) ->
  length tokens - c + 2 <= fuel ->
  exists s', scan fuel s c = Returns s' (length tokens).
Proof.
  induction fuel as [|fuel IH]; intros s c j p Hcj Hj Hp Hbefore Hafter Hfuel; [lia|].
  simpl. pose proof (tokenAt_Some_lt _ _ _ Hj) as Hjlt.
  destruct (tokenAt_lt_Some tokens c) as [t Ec]; [lia|].
  unfold currentToken at 1. rewrite Ec.
  destruct (Nat.eq_dec c j) as [->|Hne].
  - rewrite Hj in Ec. inversion Ec; subst t.
    assert (Ew : is_ p whitespace = false)
      by (destruct p as [[] ? ? ?]; try discriminate Hp; reflexivity).
    rewrite Ew, Hp.
    rewrite (skipToCloseParenthesis_to_end fuel j Hafter) by lia.
    destruct fuel as [|fuel]; [lia|]. simpl.
    destruct (currentToken (length tokens)) as [x|] eqn:Ex; [|eauto].
    apply tokenAt_Some_lt in Ex. lia.
  - destruct (Hbefore c t) as [Ho Hb]; [lia|exact Ec|].
    destruct (is_ t whitespace).
    + rewrite (advance_Some _ _ _ Ec). simpl.
      apply (IH _ _ j p); auto; try lia. intros i t' Hi. apply Hbefore. lia.
    + rewrite Ho, Hb. rewrite (advance_Some _ _ _ Ec).
      destruct (ruleStart s); apply (IH _ _ j p); auto; try lia;
        intros i t' Hi; apply Hbefore; lia.
Qed.

(** *** Smaller facts *)

Lemma previous_eq c t :
  currentToken c = Some t -> previous t = match c with 0 => None | S i => tokenAt i end.
Proof.
  intros Ec. unfold previous. rewrite (tokenAt_index _ _ _ Ec). reflexivity.
Qed.

Lemma skipToCloseParenthesis_first fuel : forall c j q,
  (forall i t, c <= i < j -> tokenAt i = Some t -> is_ t closeParenthesis = false) ->
  tokenAt j = Some q -> is_ q closeParenthesis = true ->
  c <= j -> j - c < fuel ->
  skipToCloseParenthesis fuel c = Returns tt j.
Proof.
  induction fuel as [|fuel IH]; intros c j q Hno Hj Hq Hcj Hfuel; [lia|]. simpl.
  destruct (Nat.eq_dec c j) as [->|Hne].
  - unfold currentToken. rewrite Hj, Hq. reflexivity.
  - pose proof (tokenAt_Some_lt _ _ _ Hj) as Hlt.
    destruct (tokenAt_lt_Some tokens c) as [t Ec]; [lia|].
    unfold currentToken at 1. rewrite Ec.
    rewrite (Hno c t) by (auto; lia). simpl.
    rewrite (advance_Some _ _ _ Ec). simpl.
    apply (IH _ _ q); auto; try lia. intros i t' Hi. apply Hno. lia.
Qed.

Lemma parseDeclarationOrRuleset_null fuel c c' :
  parseDeclarationOrRuleset fuel c = Returns None c' -> currentToken c' = None.
Proof.
  destruct fuel as [|fuel]; [discriminate|].
  rewrite parseDeclarationOrRuleset_S.
  destruct (scan fuel (mkScan None None None) c) as [s c1| |]; try discriminate.
  destruct (currentToken c1) as [t|] eqn:Ec1.
  2:{ intros H. inversion H; subst. exact Ec1. }
  destruct (is_ t propertyBoundary).
  { unfold declaration. destruct (ruleStart s); discriminate. }
  destruct (match colon' s, ruleEnd s with
            | Some co, Some re => same co re
            | _, _ => false
            end).
  - destruct (parseRulelist fuel c1) as [rl c2| |]; try discriminate.
    destruct (currentToken c2); try discriminate.
    destruct (ruleStart s); try discriminate. destruct (ruleEnd s); discriminate.
  - destruct (ruleStart s); try discriminate.
    destruct (parseRulelist fuel c1) as [rl c2| |]; discriminate.
Qed.

Lemma parseAtRule_not_null fuel c t c' :
  currentToken c = Some t -> is_ t at_ = true ->
  parseAtRule fuel c <> Returns None c'.
Proof.
  intros Ec Ea. destruct fuel as [|fuel]; [discriminate|].
  rewrite parseAtRule_S, Ec.
  destruct (parseAtRule_loop fuel (mkAtState None None None None None) c)
    as [s c1| |] eqn:El; try discriminate.
  apply parseAtRule_loop_state in El. destruct El as (_ & _ & H & _).
  destruct (H t Ec Ea eq_refl) as [N1 N2].
  unfold atRule_result.
  destruct (name s); [|congruence]. destruct (nameRange s); [|congruence].
  destruct (currentToken c1) as [t1|]; [|discriminate].
  destruct (previous t1); discriminate.
Qed.

End MoreParserFacts.

(** ** Properties of the parser beyond the claims *)

(** X1.  The assertion [tokenizer.currentToken.previous!] at the end of
    parseAtRule never meets [null]: whatever the token sequence, the cursor
    and the budget, neither parseAtRule nor parseRule nor parse ends in the
    TypeError of reading [end] on a missing previous token.  (The loop of
    parseAtRule consumes a token whenever one is current, so the token at
    which it is left is never the first.) *)
Theorem previous_is_never_null :
  (forall cssText tokens fuel c,
      parseAtRule cssText tokens fuel c <> Throws previousIsNull)
  /\ (forall cssText tokens fuel c,
      parseRule cssText tokens fuel c <> Throws previousIsNull)
  /\ (forall cssText, parse cssText <> Throws previousIsNull).
Proof.
  assert (R : ~ reachable previousIsNull) by (intros [E|E]; discriminate E).
  repeat apply conj.
  - intros cssText tokens fuel c E.
    destruct (faults cssText tokens fuel) as (_ & Fa & _).
    specialize (Fa c). rewrite E in Fa. exact (R Fa).
  - intros cssText tokens fuel c E.
    destruct (faults cssText tokens fuel) as (Fr & _).
    specialize (Fr c). rewrite E in Fr. exact (R Fr).
  - intros cssText E. exact (R (parse_faults _ _ E)).
Qed.

(** X2.  parseUnknown, with a token current, returns one Discarded node and
    consumes that token and the whole run of boundary tokens that follows it:
    every further token consumed answers for [boundary], the token left
    current (if any) does not, and the node's range and text run from the
    start of the first to the end of the last token consumed. *)
Theorem parseUnknown_discards_boundary_run :
  forall cssText tokens fuel c first,
    currentToken tokens c = Some first -> length tokens - c <= fuel ->
    exists last c',
      parseUnknown cssText tokens fuel c =
      Returns (Some (Discarded
                       (text_slice cssText (Range.mk (start first) (end_ last)))
                       (Range.mk (start first) (end_ last)))) c'
      /\ c < c' /\ tokenAt tokens (c' - 1) = Some last
      /\ (forall i, c < i < c' ->
                    exists t, tokenAt tokens i = Some t /\ is_ t boundary = true)
      /\ (forall t, currentToken tokens c' = Some t -> is_ t boundary = false).
Proof.
  intros cssText tokens fuel c first Ec Hfuel.
  pose proof (tokenAt_Some_lt _ _ _ Ec) as Hlt.
  unfold parseUnknown. rewrite (advance_Some _ _ _ Ec).
  destruct (parseUnknown_loop_returns tokens fuel None (S c)) as (e & c' & El);
    [lia|].
  rewrite El. apply parseUnknown_loop_run in El.
  destruct El as (H1 & H2 & H3 & H4 & H5).
  destruct (Nat.eq_dec (S c) c') as [E|Hne].
  - exists first, c'. rewrite (H4 E). subst c'. simpl. rewrite Nat.sub_0_r.
    repeat split; auto.
  - assert (Hlt' : S c < c') by lia.
    destruct (H2 (c' - 1)) as (last & Hlast & _); [lia|].
    exists last, c'. rewrite (H5 Hlt'), Hlast.
    repeat split; auto; try lia. all: intros i Hi; apply H2; lia.
Qed.

Lemma parseUnknown_discards_boundary_run_witness :
  exists last c',
    parseUnknown "};;a" (tokenize "};;a") 4 0 =
    Returns (Some (Discarded
                     (text_slice "};;a" (Range.mk 0 (end_ last)))
                     (Range.mk 0 (end_ last)))) c'
    /\ tokenAt (tokenize "};;a") (c' - 1) = Some last.
Proof.
  destruct (parseUnknown_discards_boundary_run "};;a"%string (tokenize "};;a") 4 0
              (mkToken closeBrace 0 1 0) eq_refl)
    as (last & c' & H & _ & Hl & _).
  - vm_compute. lia.
  - exists last, c'. split; [exact H|exact Hl].
Defined.

(** X3.  A Rulelist that parseRulelist returns starts at the start of the
    token that was current (which is consumed whatever its kind) and ends
    either at the end of a closeBrace token, which is then the last token
    consumed, or, when the input is exhausted, at the length of the text;
    with a budget linear in the number of tokens left the call does not run
    out of budget. *)
Theorem parseRulelist_range :
  (forall cssText tokens fuel c t rs r c',
      currentToken tokens c = Some t ->
      parseRulelist cssText tokens fuel c = Returns (mkRulelist rs r) c' ->
      Range.start r = start t /\ c < c' /\
      ((exists cb, tokenAt tokens (c' - 1) = Some cb /\ is_ cb closeBrace = true
                   /\ c < c' - 1 /\ Range.end_ r = end_ cb)
       \/ (currentToken tokens c' = None
           /\ Range.end_ r = String.length cssText)))
  /\ (forall cssText tokens fuel c,
      5 * (length tokens - c) + 6 <= fuel ->
      parseRulelist cssText tokens fuel c <> OutOfFuel).
Proof.
  split.
  - intros cssText tokens fuel c t rs r c' Ec H.
    assert (Hlt : c < c').
    { destruct (progress cssText tokens fuel) as (_ & _ & _ & Pl & _).
      specialize (Pl c). rewrite H in Pl. exact Pl. }
    destruct fuel as [|fuel]; [discriminate|].
    rewrite parseRulelist_S, Ec, (advance_Some _ _ _ Ec) in H. simpl snd in H.
    destruct (parseRulelist_loop cssText tokens fuel [] (S c))
      as [[rules e] c2| |] eqn:El; try discriminate.
    inversion H; subst. simpl.
    apply parseRulelist_loop_end in El.
    split; [reflexivity|]. split; [exact Hlt|].
    destruct e as [cb|].
    + destruct El as (Hb & Hlt' & Hcb).
      left. exists cb. repeat split; auto. lia.
    + right. split; [exact El|reflexivity].
  - intros cssText tokens fuel c Hfuel.
    destruct (terminates cssText tokens fuel) as (_ & _ & _ & Tl & _).
    apply Tl. exact Hfuel.
Qed.

Lemma parseRulelist_range_witness :
  exists rs r c',
    parseRulelist ".a{}" (tokenize ".a{}") 5 1 = Returns (mkRulelist rs r) c'
    /\ Range.start r = 2 /\ 1 < c'.
Proof.
  exists [], (Range.mk 2 4), 3. split; [reflexivity|].
  destruct (proj1 parseRulelist_range ".a{}"%string (tokenize ".a{}") 5 1
              (mkToken openBrace 2 3 1) [] (Range.mk 2 4) 3 eq_refl eq_refl)
    as (H1 & H2 & _).
  split; [exact H1|exact H2].
Defined.



(** X5.  When the scan stops at an open brace with the recorded colon as the
    last token of the span, and a token is left after the rulelist, the
    result is the mixin Declaration: its name runs from the word to the end
    of the token before the colon; the cursor moves past the token after the
    rulelist exactly when it is a semicolon; and the range runs from the word
    to the last token consumed, but only to the colon when nothing is left
    after the semicolon. *)
Theorem mixin_declaration_with_token_left :
  forall cssText tokens fuel c w s c1 stop co re rl c2 t1,
    currentToken tokens c = Some w -> is_ w word = true ->
    scan tokens fuel (mkScan None None None) c = Returns s c1 ->
    currentToken tokens c1 = Some stop -> is_ stop propertyBoundary = false ->
    colon' s = Some co -> ruleEnd s = Some re -> same co re = true ->
    parseRulelist cssText tokens fuel c1 = Returns rl c2 ->
    currentToken tokens c2 = Some t1 ->
    exists p last,
      previous tokens re = Some p /\ is_ stop openBrace = true /\
      let c3 := if is_ t1 semicolon then S c2 else c2 in
      let nameRange := Range.mk (start w) (end_ p) in
      (match currentToken tokens c3 with
       | Some _ => tokenAt tokens (c3 - 1) = Some last
       | None => last = re
       end) /\
      parseDeclarationOrRuleset cssText tokens (S fuel) c =
      Returns (Some (Declaration (text_slice cssText nameRange)
                       (Some (Mixin rl)) nameRange
                       (trimRange cssText (Range.mk (start w) (end_ last))))) c3.
Proof.
  intros cssText tokens fuel c w s c1 stop co re rl c2 t1
         Ec Ew Es Ec1 Hstop Eco Ere Esame El Ec2.
  destruct (scan_word _ _ _ _ _ _ Ec Ew Es) as (Hrs & _ & Hlt).
  pose proof (scan_span _ _ _ _ _ _ Es) as Hsp. cbv zeta in Hsp.
  destruct Hsp as (_ & _ & _ & _ & Hsp). rewrite Ec1, Hstop, orb_false_r in Hsp.
  pose proof (scan_refs _ _ _ _ _ _ Es) as [Hco Hre].
  destruct (Hco co Eco) as [E|(Hi & Hat & Hcol)]; [discriminate E|].
  destruct (Hre re Ere) as [E|(Hi' & Hat')]; [discriminate E|].
  assert (Hne : index re <> c).
  { apply Nat.eqb_eq in Esame. rewrite <- Esame. intros E. rewrite E in Hat.
    unfold currentToken in Ec. rewrite Ec in Hat. inversion Hat; subst.
    apply is_word_type in Ew. rewrite (is_of_type _ _ _ Ew) in Hcol.
    discriminate Hcol. }
  destruct (previous_Some tokens (index re) re Hat') as (p & Hp & _); [lia|].
  assert (Hlt2 : c1 < c2).
  { destruct (progress cssText tokens fuel) as (_ & _ & _ & Pl & _).
    specialize (Pl c1). rewrite El in Pl. exact Pl. }
  pose proof (tokenAt_Some_lt _ _ _ Ec2) as Hlen2.
  set (c3 := if is_ t1 semicolon then S c2 else c2).
  assert (Hc3 : 0 < c3 <= length tokens) by (unfold c3; destruct (is_ t1 semicolon); lia).
  assert (Hlast : exists last,
             match currentToken tokens c3 with
             | Some _ => tokenAt tokens (c3 - 1) = Some last
             | None => last = re
             end /\ previousOr tokens c3 (Some re) = Some last).
  { unfold previousOr. destruct (currentToken tokens c3) as [t3|] eqn:Ec3.
    - rewrite (previous_eq _ _ _ Ec3).
      destruct (tokenAt_lt_Some tokens (c3 - 1)) as [last Hl]; [lia|].
      exists last. split; [exact Hl|].
      destruct c3 as [|c3']; [lia|]. simpl in Hl. rewrite Nat.sub_0_r in Hl.
      rewrite Hl. reflexivity.
    - exists re. split; reflexivity. }
  destruct Hlast as (last & Hl1 & Hl2).
  exists p, last. split; [exact Hp|]. split; [exact Hsp|]. cbv zeta.
  fold c3. split; [exact Hl1|].
  rewrite parseDeclarationOrRuleset_S, Es, Ec1, Hstop, Eco, Ere, Esame, El, Ec2.
  rewrite Hrs. cbv zeta.
  replace (if is_ t1 semicolon then snd (advance tokens c2) else c2) with c3
    by (unfold c3; rewrite (advance_Some _ _ _ Ec2); reflexivity).
  rewrite Hl2, Hp. reflexivity.
Qed.

Lemma mixin_declaration_with_token_left_witness :
  exists r, parseDeclarationOrRuleset "a:{};" (tokenize "a:{};") 7 0
            = Returns (Some r) 5.
Proof.
  destruct (mixin_declaration_with_token_left "a:{};"%string (tokenize "a:{};") 6 0
              (mkToken word 0 1 0)
              (mkScan (Some (mkToken word 0 1 0)) (Some (mkToken colon 1 2 1))
                      (Some (mkToken colon 1 2 1)))
              2 (mkToken openBrace 2 3 2) (mkToken colon 1 2 1) (mkToken colon 1 2 1)
              (mkRulelist [] (Range.mk 2 4)) 4 (mkToken semicolon 4 5 4)
              eq_refl eq_refl eq_refl eq_refl eq_refl eq_refl eq_refl eq_refl
              eq_refl eq_refl)
    as (p & last & _ & _ & _ & H).
  cbv zeta in H. eexists. exact H.
Defined.

(** X6.  On tokens that are all whitespace or comments, parseRules returns
    exactly one Comment node for each comment token, in the order of the
    tokens, with the token's text and range, and nothing for whitespace; it
    leaves no token unread.  In particular an empty or all-whitespace token
    sequence gives no rule. *)
Theorem whitespace_and_comments_only :
  forall cssText tokens fuel c,
    (forall i t, c <= i -> tokenAt tokens i = Some t ->
                 is_ t whitespace || is_ t comment = true) ->
    length tokens - c < fuel ->
    exists c',
      parseRules cssText tokens fuel c =
      Returns (commentsOf cssText (tokensFrom tokens c)) c'
      /\ currentToken tokens c' = None.
Proof.
  intros cssText tokens fuel c Hall Hfuel.
  pose proof (parseRules_loop_comments cssText tokens fuel [] c Hall Hfuel) as H.
  exists (c + length (tokensFrom tokens c)). unfold parseRules.
  split; [exact H|].
  apply parseRules_loop_end in H. tauto.
Qed.

Lemma whitespace_and_comments_only_witness :
  exists c',
    parseRules " /*a*/ " (tokenize " /*a*/ ") 4 0 =
    Returns [Comment "/*a*/" (Range.mk 1 6)] c'.
Proof.
  destruct (whitespace_and_comments_only " /*a*/ "%string (tokenize " /*a*/ ") 4 0)
    as (c' & H & _).
  - intros i t Hi.
    do 3 (destruct i as [|i]; [vm_compute; intros E; inversion E; reflexivity|]).
    vm_compute. destruct i; discriminate.
  - vm_compute. lia.
  - exists c'. exact H.
Defined.

(** X7.  parseRules returns only when every token has been read: the cursor
    it leaves has no current token, and it is the number of tokens when the
    call started within the sequence.  So the cursor that parse returns is
    the number of tokens of the text. *)
Theorem parseRules_reads_every_token :
  (forall cssText tokens fuel c rs c',
      parseRules cssText tokens fuel c = Returns rs c' ->
      currentToken tokens c' = None /\ (c <= length tokens -> c' = length tokens))
  /\ (forall cssText st c,
      parse cssText = Returns st c -> c = length (tokenize cssText)).
Proof.
  assert (G : forall cssText tokens fuel c rs c',
      parseRules cssText tokens fuel c = Returns rs c' ->
      currentToken tokens c' = None /\ (c <= length tokens -> c' = length tokens)).
  { intros cssText tokens fuel c rs c' H. unfold parseRules in H.
    apply parseRules_loop_end in H. destruct H as (H1 & H2 & _).
    split; [exact H1|]. intros Hc. apply tokenAt_None_ge in H1.
    specialize (H2 Hc). lia. }
  split; [exact G|].
  intros cssText st c H. unfold parse, parseStylesheet in H.
  destruct (parseRules cssText (tokenize cssText) _ 0) as [rs c'| |] eqn:E;
    try discriminate.
  inversion H; subst. apply G in E. apply E. lia.
Qed.

Lemma parseRules_reads_every_token_witness :
  currentToken (tokenize "a{} b;") 6 = None /\ 6 = length (tokenize "a{} b;").
Proof.
  destruct (proj1 parseRules_reads_every_token "a{} b;"%string (tokenize "a{} b;")
              20 0
              [Ruleset "a" (mkRulelist [] (Range.mk 1 3)) (Range.mk 0 1) (Range.mk 0 3);
               Declaration "b" None (Range.mk 4 5) (Range.mk 4 5)]
              6 eq_refl) as [H1 H2].
  split; [exact H1|]. apply H2. vm_compute. lia.
Defined.

(** X8.  An open parenthesis that is never closed swallows the rest of the
    input: when the scan of parseDeclarationOrRuleset reaches an open
    parenthesis (no brace, property boundary or other open parenthesis before
    it) and no close parenthesis follows, every remaining token is consumed,
    semicolons and braces included, and the result is [null]: no node, not
    even a Discarded one, stands for the tokens read. *)
Theorem unclosed_parenthesis_swallows_the_rest :
  forall cssText tokens fuel c j p,
    c <= j -> tokenAt tokens j = Some p -> is_ p openParenthesis = true ->
    (forall i t, c <= i < j -> tokenAt tokens i = Some t ->
                 is_ t openParenthesis = false /\
                 is_ t openBrace || is_ t propertyBoundary = false) ->
    (forall i t, j <= i -> tokenAt tokens i = Some t ->
                 is_ t closeParenthesis = false) ->
    length tokens - c + 2 <= fuel ->
    parseDeclarationOrRuleset cssText tokens (S fuel) c
    = Returns None (length tokens).
Proof.
  intros cssText tokens fuel c j p Hcj Hj Hp Hbefore Hafter Hfuel.
  destruct (scan_unclosed tokens fuel (mkScan None None None) c j p
              Hcj Hj Hp Hbefore Hafter Hfuel) as [s Es].
  rewrite parseDeclarationOrRuleset_S, Es.
  destruct (currentToken tokens (length tokens)) as [x|] eqn:Ex; [|reflexivity].
  apply tokenAt_Some_lt in Ex. lia.
Qed.

Lemma unclosed_parenthesis_swallows_the_rest_witness :
  parseDeclarationOrRuleset "a(b;c{}" (tokenize "a(b;c{}") 10 0 = Returns None 7
  /\ parse "a(b;c{}" = Returns (mkStylesheet [] (Range.mk 0 7)) 7.
Proof.
  split; [|reflexivity].
  refine (unclosed_parenthesis_swallows_the_rest "a(b;c{}"%string
            (tokenize "a(b;c{}") 9 0 1 (mkToken openParenthesis 1 2 1)
            _ eq_refl eq_refl _ _ _).
  - lia.
  - intros i t Hi. destruct i as [|i]; [|lia].
    vm_compute. intros E. inversion E. split; reflexivity.
  - intros i t Hi.
    do 7 (destruct i as [|i]; [vm_compute; intros E; inversion E; reflexivity|]).
    vm_compute. destruct i; discriminate.
  - vm_compute. lia.
Defined.

(** X9.  A parenthesised group is skipped whole and nesting is not tracked:
    at an open parenthesis, the scan goes on from the first close parenthesis
    that follows with its variables unchanged, whatever tokens lie between
    (colons, semicolons, braces, further open parentheses). *)
Theorem group_is_skipped_to_first_close :
  forall tokens fuel s c j p q,
    tokenAt tokens c = Some p -> is_ p openParenthesis = true ->
    c < j -> tokenAt tokens j = Some q -> is_ q closeParenthesis = true ->
    (forall i t, c < i < j -> tokenAt tokens i = Some t ->
                 is_ t closeParenthesis = false) ->
    j - c < fuel ->
    scan tokens (S fuel) s c = scan tokens fuel s j.
Proof.
  intros tokens fuel s c j p q Hc Hp Hlt Hj Hq Hno Hfuel.
  assert (Ew : is_ p whitespace = false)
    by (destruct p as [[] ? ? ?]; try discriminate Hp; reflexivity).
  assert (Ecl : is_ p closeParenthesis = false)
    by (destruct p as [[] ? ? ?]; try discriminate Hp; reflexivity).
  simpl. unfold currentToken at 1. rewrite Hc, Ew, Hp.
  rewrite (skipToCloseParenthesis_first tokens fuel c j q); auto; try lia.
  intros i t Hi Ht. destruct (Nat.eq_dec i c) as [->|Hne].
  - rewrite Hc in Ht. inversion Ht; subst. exact Ecl.
  - apply (Hno i); auto. lia.
Qed.

Lemma group_is_skipped_to_first_close_witness :
  let tokens := tokenize "a(b;(c)d){}" in
  scan tokens 9 (mkScan None None None) 1 = scan tokens 8 (mkScan None None None) 6.
Proof.
  refine (group_is_skipped_to_first_close (tokenize "a(b;(c)d){}") 8
            (mkScan None None None) 1 6
            (mkToken openParenthesis 1 2 1) (mkToken closeParenthesis 6 7 6)
            eq_refl eq_refl _ eq_refl eq_refl _ _).
  - lia.
  - intros i t Hi.
    do 6 (destruct i as [|i]; [try lia; vm_compute; intros E; inversion E; reflexivity|]).
    lia.
  - lia.
Defined.

(** X10.  The parser throws nothing on a token sequence in which no colon is
    followed, whitespace apart, by an open brace, and whose last token is not
    an [@]: from every cursor parseRules returns its list of rules, and
    parseStylesheet returns a Stylesheet with the range of the whole text and
    every token read. *)
Theorem total_without_mixin_and_trailing_at :
  forall cssText tokens fuel c,
    mixinFree tokens -> atNotLast tokens ->
    budget (length tokens - c) <= fuel ->
    (exists rs c',
        parseRules cssText tokens fuel c = Returns rs c'
        /\ currentToken tokens c' = None)
    /\ (c <= length tokens ->
        exists rs,
          parseStylesheet cssText tokens fuel c =
          Returns (mkStylesheet rs (Range.mk 0 (String.length cssText)))
                  (length tokens)).
Proof.
  intros cssText tokens fuel c Hm Ha Hfuel.
  assert (F : forall f rules c0,
             failing (parseRules_loop cssText tokens f rules c0) (fun _ => False)).
  { induction f as [|f IH]; intros rules c0; [exact I|]. simpl.
    destruct (currentToken tokens c0) as [t|]; [|exact I].
    destruct (no_faults cssText tokens Hm Ha f) as (Fr & _). specialize (Fr c0).
    destruct (parseRule cssText tokens f c0) as [r c1| |]; simpl; auto. }
  pose proof (parseRules_loop_terminates cssText tokens fuel [] c) as T.
  specialize (F fuel [] c). unfold budget in Hfuel.
  unfold parseStylesheet, parseRules.
  destruct (parseRules_loop cssText tokens fuel [] c) as [rs c'| |] eqn:E.
  - apply parseRules_loop_end in E. destruct E as (E1 & E2 & _). split.
    + exists rs, c'. split; [reflexivity|exact E1].
    + intros Hc. exists rs. apply tokenAt_None_ge in E1.
      specialize (E2 Hc). replace c' with (length tokens) by lia. reflexivity.
  - destruct F.
  - exfalso. apply T; [lia|reflexivity].
Qed.

Lemma total_without_mixin_and_trailing_at_witness :
  exists rs c', parseRules "a:b;" (tokenize "a:b;") 30 0 = Returns rs c'
                /\ currentToken (tokenize "a:b;") c' = None.
Proof.
  refine (proj1 (total_without_mixin_and_trailing_at "a:b;"%string
                   (tokenize "a:b;") 30 0 _ _ _)).
  - intros j k co ob Hj Hco Hlt Hws Hk.
    do 4 (destruct k as [|k];
          [vm_compute in Hk; inversion Hk; reflexivity|]).
    vm_compute in Hk. destruct k; discriminate.
  - intros t. vm_compute. intros E. inversion E. reflexivity.
  - vm_compute. lia.
Defined.

(** X11.  parseRules adds at most one rule for every token it reads, so a
    Stylesheet never has more top-level rules than the text has tokens. *)
Theorem no_more_rules_than_tokens :
  (forall cssText tokens fuel c rs c',
      parseRules cssText tokens fuel c = Returns rs c' ->
      length rs <= c' - c)
  /\ (forall cssText st c,
      parse cssText = Returns st c ->
      length (rules st) <= length (tokenize cssText)).
Proof.
  assert (G : forall cssText tokens fuel c rs c',
      parseRules cssText tokens fuel c = Returns rs c' ->
      length rs <= c' - c /\ (c <= length tokens -> c' <= length tokens)).
  { intros cssText tokens fuel c rs c' H. unfold parseRules in H.
    apply parseRules_loop_end in H. destruct H as (_ & H2 & H3).
    simpl in H3. split; [lia|exact H2]. }
  split; [intros; eapply G; eauto|].
  intros cssText st c H. unfold parse, parseStylesheet in H.
  destruct (parseRules cssText (tokenize cssText) _ 0) as [rs c'| |] eqn:E;
    try discriminate.
  inversion H; subst. simpl. apply G in E. destruct E as [E1 E2].
  specialize (E2 (Nat.le_0_l _)). lia.
Qed.

Lemma no_more_rules_than_tokens_witness :
  length (rules (mkStylesheet
                   [Declaration "a" (Some (Expression "b" (Range.mk 2 3)))
                                (Range.mk 0 1) (Range.mk 0 3)]
                   (Range.mk 0 4)))
  <= length (tokenize "a:b;").
Proof.
  exact (proj2 no_more_rules_than_tokens "a:b;"%string _ 4 eq_refl).
Defined.



(** X13.  An AtRule that parseAtRule returns has a range that starts at the
    start of the token that was current and ends at the end of the last token
    consumed, or at the length of the text when the input is exhausted; at
    least one token is consumed; and when the AtRule has no rulelist, either
    the input is exhausted or the last token consumed answers for
    [propertyBoundary]. *)
Theorem atRule_range_and_end :
  forall cssText tokens fuel c t r c',
    currentToken tokens c = Some t ->
    parseAtRule cssText tokens fuel c = Returns (Some r) c' ->
    exists name parameters rulelist nameRange parametersRange e,
      r = AtRule name parameters rulelist nameRange parametersRange
                 (Range.mk (start t) e)
      /\ c < c'
      /\ match currentToken tokens c' with
         | Some _ => exists p, tokenAt tokens (c' - 1) = Some p /\ e = end_ p
         | None => e = String.length cssText
         end
      /\ (rulelist = None ->
          currentToken tokens c' = None \/
          exists b, tokenAt tokens (c' - 1) = Some b
                    /\ is_ b propertyBoundary = true).
Proof.
  intros cssText tokens fuel c t r c' Ec H.
  assert (Hlt : c < c').
  { destruct (progress cssText tokens fuel) as (_ & Pa & _).
    specialize (Pa c). rewrite H in Pa. simpl in Pa. apply Pa. congruence. }
  destruct fuel as [|fuel]; [discriminate|].
  rewrite parseAtRule_S, Ec in H.
  destruct (parseAtRule_loop cssText tokens fuel
              (mkAtState None None None None None) c) as [s c1| |] eqn:El;
    try discriminate.
  apply parseAtRule_loop_state in El. destruct El as (_ & _ & _ & Hend).
  unfold atRule_result in H.
  destruct (name s) as [nm|]; [|discriminate].
  destruct (nameRange s) as [nr|]; [|discriminate].
  destruct (currentToken tokens c1) as [t1|] eqn:Ec1.
  - rewrite (previous_eq _ _ _ Ec1) in H. destruct c1 as [|c1]; [discriminate|].
    destruct (tokenAt tokens c1) as [p|] eqn:Ep; [|discriminate].
    inversion H; subst. rewrite Ec1.
    do 6 eexists. split; [reflexivity|]. split; [exact Hlt|].
    simpl. rewrite Nat.sub_0_r. split; [eauto|].
    intros Hn. destruct (Hend Hn) as [E|(b & _ & Hb1 & Hb2)]; [congruence|].
    right. exists b. simpl in Hb1. rewrite Nat.sub_0_r in Hb1. auto.
  - inversion H; subst. rewrite Ec1.
    do 6 eexists. split; [reflexivity|]. split; [exact Hlt|].
    split; [reflexivity|]. intros _. left. reflexivity.
Qed.

Lemma atRule_range_and_end_witness :
  exists name parameters rulelist nameRange parametersRange e,
    AtRule "x" EmptyString None (Range.mk 1 2) None (Range.mk 0 3)
    = AtRule name parameters rulelist nameRange parametersRange (Range.mk 0 e).
Proof.
  destruct (atRule_range_and_end "@x;"%string (tokenize "@x;") 9 0
              (mkToken at_ 0 1 0)
              (AtRule "x" EmptyString None (Range.mk 1 2) None (Range.mk 0 3)) 3
              eq_refl eq_refl)
    as (n & ps & rl & nr & pr & e & H & _).
  exists n, ps, rl, nr, pr, e. exact H.
Defined.

(** X14.  parseRule drops tokens without a node in one case only: when the
    current token is not whitespace and parseRule returns [null], that token
    is a word and the input is exhausted (a declaration or ruleset whose scan
    ran off the end).  Comment, at-rule and recovery always give a node. *)
Theorem parseRule_null_only_at_end_of_input :
  forall cssText tokens fuel c t c',
    currentToken tokens c = Some t -> is_ t whitespace = false ->
    parseRule cssText tokens fuel c = Returns None c' ->
    is_ t word = true /\ currentToken tokens c' = None.
Proof.
  intros cssText tokens fuel c t c' Ec Ew H.
  destruct fuel as [|fuel]; [discriminate|].
  rewrite parseRule_S, Ec, Ew in H.
  assert (Hu : parseUnknown cssText tokens fuel c <> Returns None c').
  { unfold parseUnknown. rewrite (advance_Some _ _ _ Ec).
    destruct (parseUnknown_loop tokens fuel None (S c)); discriminate. }
  destruct (is_ t comment).
  { unfold parseComment in H. rewrite (advance_Some _ _ _ Ec) in H. discriminate. }
  destruct (is_ t word).
  { split; [reflexivity|]. eapply parseDeclarationOrRuleset_null; eauto. }
  destruct (is_ t propertyBoundary); [contradiction|].
  destruct (is_ t at_) eqn:Ea; [|contradiction].
  exfalso. eapply parseAtRule_not_null; eauto.
Qed.

Lemma parseRule_null_only_at_end_of_input_witness :
  is_ (mkToken word 0 1 0) word = true /\ currentToken (tokenize "a:b") 3 = None.
Proof.
  exact (parseRule_null_only_at_end_of_input "a:b"%string (tokenize "a:b") 9 0
           (mkToken word 0 1 0) 3 eq_refl eq_refl eq_refl).
Defined.

(** *** The name of an at-rule *)

Lemma words_loop_run tokens fuel : forall e c e' c',
  words_loop tokens fuel e c = Returns e' c' ->
  c <= c'
  /\ (forall i, c <= i < c' ->
                exists t, tokenAt tokens i = Some t /\ is_ t word = true)
  /\ (forall t, currentToken tokens c' = Some t -> is_ t word = false)
  /\ (c = c' -> e' = e)
  /\ (c < c' -> e' = tokenAt tokens (c' - 1)).
Proof.
  induction fuel as [|fuel IH]; simpl; intros e c e' c' H; [discriminate|].
  destruct (currentToken tokens c) as [t|] eqn:Ec.
  2:{ inversion H; subst. repeat split; auto; try lia.
      intros t Ht. rewrite Ec in Ht. discriminate. }
  destruct (is_ t word) eqn:Eb.
  2:{ inversion H; subst. repeat split; auto; try lia.
      intros t' Ht. rewrite Ec in Ht. inversion Ht; subst. exact Eb. }
  rewrite (advance_Some _ _ _ Ec) in H. apply IH in H.
  destruct H as (H1 & H2 & H3 & H4 & H5).
  repeat split; auto; try lia.
  - intros i Hi. destruct (Nat.eq_dec i c) as [->|Hne]; [eauto|].
    apply H2. lia.
  - intros _. destruct (Nat.eq_dec (S c) c') as [E|Hne].
    + rewrite (H4 E). subst c'. simpl. rewrite Nat.sub_0_r. symmetry. exact Ec.
    + apply H5. lia.
Qed.

Lemma parseAtRule_loop_keeps_name cssText tokens fuel : forall s c s' c',
  parseAtRule_loop cssText tokens fuel s c = Returns s' c' ->
  truthy (name s) = true ->
  name s' = name s /\ nameRange s' = nameRange s.
Proof.
  induction fuel as [|fuel IH]; intros s c s' c' H Hn; [discriminate|].
  rewrite parseAtRule_loop_S in H.
  destruct (currentToken tokens c) as [t|] eqn:Ec.
  2:{ inversion H; subst. split; reflexivity. }
  rewrite Hn in H. simpl negb in H. simpl andb in H.
  destruct (is_ t whitespace); [apply IH in H; auto|].
  destruct (is_ t openBrace).
  { destruct (parseRulelist cssText tokens fuel c); try discriminate.
    inversion H; subst. split; reflexivity. }
  destruct (is_ t propertyBoundary); [inversion H; subst; split; reflexivity|].
  destruct (advance tokens c) as [x c1].
  destruct (parametersStart s); apply IH in H; auto.
Qed.

(** X15.  parseAtRule takes the name of an at-rule from the token that
    follows the [@], whatever its kind, and extends it over the word tokens
    that follow: the name range runs from the start of that token to the end
    of the last token of the run of word tokens consumed (to the end of the
    token itself when it is not a word).  When that text is not empty it is
    the name of the AtRule returned; a later [@] does not change it. *)
Theorem atRule_name_from_token_after_at :
  forall cssText tokens fuel c t st r c',
    currentToken tokens c = Some t -> is_ t at_ = true ->
    currentToken tokens (S c) = Some st ->
    parseAtRule cssText tokens fuel c = Returns (Some r) c' ->
    exists last c2,
      S c <= c2
      /\ (forall i, S c <= i < c2 ->
                    exists w, tokenAt tokens i = Some w /\ is_ w word = true)
      /\ (forall w, currentToken tokens c2 = Some w -> is_ w word = false)
      /\ (if S c <? c2 then tokenAt tokens (c2 - 1) = Some last else last = st)
      /\ let nameRange := Range.mk (start st) (end_ last) in
         (text_slice cssText nameRange <> EmptyString ->
          exists parameters rulelist parametersRange range,
            r = AtRule (text_slice cssText nameRange) parameters rulelist
                       nameRange parametersRange range).
Proof.
  intros cssText tokens fuel c t st r c' Ec Ea Est H.
  destruct fuel as [|fuel]; [discriminate|].
  rewrite parseAtRule_S, Ec in H.
  destruct (parseAtRule_loop cssText tokens fuel
              (mkAtState None None None None None) c) as [s c1| |] eqn:El;
    try discriminate.
  destruct fuel as [|fuel]; [discriminate|].
  rewrite parseAtRule_loop_S, Ec in El.
  rewrite (is_at_word_free _ Ea), Ea in El. simpl in El.
  rewrite (advance_Some _ _ _ Ec) in El. simpl snd in El.
  destruct (words_loop tokens fuel None (S c)) as [e c2| |] eqn:Ew;
    try discriminate.
  rewrite Est in El.
  apply words_loop_run in Ew. destruct Ew as (W1 & W2 & W3 & W4 & W5).
  assert (Hlast : exists last,
             (if S c <? c2 then tokenAt tokens (c2 - 1) = Some last else last = st)
             /\ getRange st e = Range.mk (start st) (end_ last)).
  { destruct (S c <? c2) eqn:Elt.
    - apply Nat.ltb_lt in Elt. destruct (W2 (c2 - 1)) as (w & Hw & _); [lia|].
      exists w. split; [exact Hw|]. rewrite (W5 Elt), Hw. reflexivity.
    - apply Nat.ltb_ge in Elt. exists st. split; [reflexivity|].
      rewrite W4 by lia. reflexivity. }
  destruct Hlast as (last & Hl1 & Hl2).
  exists last, c2. repeat split; auto.
  cbv zeta. intros Hne. rewrite Hl2 in El.
  apply parseAtRule_loop_keeps_name in El.
  2:{ simpl. destruct (text_slice cssText _); [congruence|reflexivity]. }
  simpl in El. destruct El as [N1 N2].
  unfold atRule_result in H. rewrite N1, N2 in H.
  destruct (currentToken tokens c1) as [t1|].
  - destruct (previous tokens t1); [|discriminate].
    inversion H; subst. do 4 eexists. reflexivity.
  - inversion H; subst. do 4 eexists. reflexivity.
Qed.

Lemma atRule_name_from_token_after_at_witness :
  exists last c2,
    (if 1 <? c2 then tokenAt (tokenize "@ x;") (c2 - 1) = Some last
     else last = mkToken whitespace 1 2 1)
    /\ (text_slice "@ x;" (Range.mk 1 (end_ last)) <> EmptyString ->
        exists parameters rulelist parametersRange range,
          AtRule " " "x" None (Range.mk 1 2) (Some (Range.mk 2 3)) (Range.mk 0 4)
          = AtRule (text_slice "@ x;" (Range.mk 1 (end_ last))) parameters
                   rulelist (Range.mk 1 (end_ last)) parametersRange range).
Proof.
  destruct (atRule_name_from_token_after_at "@ x;"%string (tokenize "@ x;") 9 0
              (mkToken at_ 0 1 0) (mkToken whitespace 1 2 1)
              (AtRule " " "x" None (Range.mk 1 2) (Some (Range.mk 2 3)) (Range.mk 0 4))
              4 eq_refl eq_refl eq_refl eq_refl)
    as (last & c2 & _ & _ & _ & H1 & H2).
  exists last, c2. split; [exact H1|exact H2].
Defined.
